(** * Magic-link token lifecycle of the passwordless-auth server

    A shallow embedding of [index.js]: the five operations that touch the
    [User] table (signup, login, verify, resend-verification and the hourly
    cleanup), written as programs over the Prisma calls they await, with a
    sequential semantics (one request at a time) and an interleaving
    semantics (requests switch at every [await]). *)

From stdpp Require Import base decidable option list strings.
From Stdlib Require Import ZArith.
From Stdlib.Strings Require Import Ascii String Byte.

Local Open Scope string_scope.
Local Open Scope list_scope.
Local Open Scope Z_scope.

Set Warnings "-register-all".

(** ** JavaScript values as they arrive in [req.body] *)

Module Js.

(** A parsed JSON value, or [undefined] for an absent field. Of a number the
    handlers only observe whether it is zero. *)
Inductive jsval : Type :=
| JUndefined
| JNull
| JBool (b : bool)
| JNum (z : Z)
| JStr (s : string)
| JArr (l : list jsval)
| JObj (fields : list (string * jsval)).

(** [!!v]. *)
Definition truthy (v : jsval) : bool :=
  match v with
  | JUndefined | JNull => false
  | JBool b => b
  | JNum z => negb (z =? 0)
  | JStr s => negb (String.eqb s "")
  | JArr _ | JObj _ => true
  end.

(** [a || b]. *)
Definition js_or (a b : jsval) : jsval := if truthy a then a else b.

(** [String.prototype.includes]: [sub] occurs somewhere in [s]. *)
Fixpoint includes (s sub : string) : bool :=
  String.prefix sub s ||
  match s with
  | EmptyString => false
  | String _ s' => includes s' sub
  end.

(** [v.includes(x)] for a string [x]: substring search on a string,
    element search on an array, and a TypeError ([None]) on everything
    else, which has no callable [includes]. *)
Definition js_includes (v : jsval) (x : string) : option bool :=
  match v with
  | JStr s => Some (includes s x)
  | JArr l =>
      Some (existsb (fun e => match e with
                              | JStr y => String.eqb y x
                              | _ => false
                              end) l)
  | _ => None
  end.

(** A nullable database string read back into JavaScript. *)
Definition of_db (o : option string) : jsval :=
  match o with
  | Some s => JStr s
  | None => JNull
  end.

End Js.

(** ** [crypto.randomBytes(n).toString('hex')] *)

Module Hex.

Definition digit (n : N) : ascii :=
  match n with
  | 0%N => "0" | 1%N => "1" | 2%N => "2" | 3%N => "3"
  | 4%N => "4" | 5%N => "5" | 6%N => "6" | 7%N => "7"
  | 8%N => "8" | 9%N => "9" | 10%N => "a" | 11%N => "b"
  | 12%N => "c" | 13%N => "d" | 14%N => "e" | _ => "f"
  end%char.

Fixpoint toString (bs : list byte) : string :=
  match bs with
  | [] => EmptyString
  | b :: r =>
      let n := Byte.to_N b in
      String (digit (N.div n 16)) (String (digit (N.modulo n 16)) (toString r))
  end.

End Hex.

(** ** The [User] table *)

Module Db.

(** One row of [model User] of the Prisma schema. Dates are milliseconds
    since the epoch. *)
Record User : Type := mkUser {
  id : string;
  email : string;
  name : option string;
  verified : bool;
  magicLinkToken : option string;
  magicLinkExpires : option Z;
  magicLinkUsed : bool;
  createdAt : Z;
  updatedAt : Z;
}.

(** Rows in insertion order. *)
Abbreviation store := (list User).

(** The schema's constraints: [id] is the primary key, [email] is [@unique],
    [magicLinkToken] is [@unique] (any number of rows may hold NULL). *)
Definition tokens (s : store) : list string := omap magicLinkToken s.

Definition constraints_ok (s : store) : bool :=
  bool_decide (NoDup (id <$> s)) &&
  bool_decide (NoDup (email <$> s)) &&
  bool_decide (NoDup (tokens s)).

(** A [where] object: the conjunction of its field conditions. A comparison
    with a NULL column is false. [TokenMatches] is a filter object on
    [magicLinkToken] ([{ not: ... }], [{ contains: ... }] and the like) as
    Prisma has read it: a test of the column's value. *)
Inductive cond : Type :=
| IdIs (i : string)
| EmailIs (e : string)
| TokenIs (t : string)
| TokenMatches (p : option string -> bool)
| TokenNotNull
| UsedIs (b : bool)
| ExpiresGt (d : Z)
| ExpiresLt (d : Z).

Definition holds (u : User) (c : cond) : bool :=
  match c with
  | IdIs i => String.eqb (id u) i
  | EmailIs e => String.eqb (email u) e
  | TokenIs t =>
      match magicLinkToken u with
      | Some t' => String.eqb t' t
      | None => false
      end
  | TokenMatches p => p (magicLinkToken u)
  | TokenNotNull =>
      match magicLinkToken u with
      | Some _ => true
      | None => false
      end
  | UsedIs b => Bool.eqb (magicLinkUsed u) b
  | ExpiresGt d =>
      match magicLinkExpires u with
      | Some e => d <? e
      | None => false
      end
  | ExpiresLt d =>
      match magicLinkExpires u with
      | Some e => e <? d
      | None => false
      end
  end.

Definition matches (w : list cond) (u : User) : bool := forallb (holds u) w.

(** The [data] object of an update: [None] leaves the column alone. *)
Record update_data : Type := mkUpdate {
  set_name : option (option string);
  set_verified : option bool;
  set_magicLinkToken : option (option string);
  set_magicLinkExpires : option (option Z);
  set_magicLinkUsed : option bool;
}.

(** The [data] object of a create. *)
Record create_data : Type := mkCreate {
  new_email : string;
  new_name : option string;
  new_magicLinkToken : option string;
  new_magicLinkExpires : option Z;
  new_magicLinkUsed : bool;
}.

(** Writing [d] to a row at time [now]; [updatedAt] is [@updatedAt]. *)
Definition apply_update (d : update_data) (now : Z) (u : User) : User :=
  {| id := id u;
     email := email u;
     name := default (name u) (set_name d);
     verified := default (verified u) (set_verified d);
     magicLinkToken := default (magicLinkToken u) (set_magicLinkToken d);
     magicLinkExpires := default (magicLinkExpires u) (set_magicLinkExpires d);
     magicLinkUsed := default (magicLinkUsed u) (set_magicLinkUsed d);
     createdAt := createdAt u;
     updatedAt := now |}.

(** The row a create inserts: [id] is a fresh cuid, [verified] defaults to
    false, both timestamps are the insertion time. *)
Definition new_row (cuid : string) (now : Z) (d : create_data) : User :=
  {| id := cuid;
     email := new_email d;
     name := new_name d;
     verified := false;
     magicLinkToken := new_magicLinkToken d;
     magicLinkExpires := new_magicLinkExpires d;
     magicLinkUsed := new_magicLinkUsed d;
     createdAt := now;
     updatedAt := now |}.

(** [UPDATE User SET d WHERE w]. *)
Definition write_where (w : list cond) (d : update_data) (now : Z) (s : store) : store :=
  (fun u => if matches w u then apply_update d now u else u) <$> s.

Definition findFirst (w : list cond) (s : store) : option User :=
  List.find (matches w) s.

(** A failed Prisma call. *)
Inductive prisma_error : Type :=
| RecordNotFound
| UniqueConstraintFailed.

(** [prisma.user.update]: the row must exist and the write must keep the
    unique constraints; the updated row is returned. *)
Definition update (w : list cond) (d : update_data) (now : Z) (s : store)
  : (prisma_error + User) * store :=
  match findFirst w s with
  | None => (inl RecordNotFound, s)
  | Some u =>
      let s' := write_where w d now s in
      if constraints_ok s' then (inr (apply_update d now u), s')
      else (inl UniqueConstraintFailed, s)
  end.

(** [prisma.user.create]. *)
Definition create (cuid : string) (d : create_data) (now : Z) (s : store)
  : (prisma_error + User) * store :=
  let u := new_row cuid now d in
  let s' := s ++ [u] in
  if constraints_ok s' then (inr u, s') else (inl UniqueConstraintFailed, s).

(** [prisma.user.updateMany]: returns the number of rows written. *)
Definition updateMany (w : list cond) (d : update_data) (now : Z) (s : store)
  : (prisma_error + nat) * store :=
  let s' := write_where w d now s in
  if constraints_ok s'
  then (inr (List.length (List.filter (matches w) s)), s')
  else (inl UniqueConstraintFailed, s).

End Db.

(** ** Handlers as programs over the calls they make *)

Module Prog.
Import Js Db.

(** What a handler's [catch] can receive. *)
Inductive exn : Type :=
| TypeError
| PrismaValidationError
| PrismaRequestError (e : prisma_error)
| MailError
| JwtError.

(** The arguments of one [transporter.sendMail] attempt: the three
    parameters of [sendMagicLinkEmail]. *)
Record mail : Type := mkMail {
  mail_to : string;
  mail_name : jsval;
  mail_link : string;
}.

(** The effectful calls of [index.js], indexed by what they answer. *)
Inductive op : Type -> Type :=
| FindUnique (w : list cond) : op (option User)
| FindFirst (w : list cond) : op (option User)
| Update (w : list cond) (d : update_data) : op (prisma_error + User)
| Create (d : create_data) : op (prisma_error + User)
| UpdateMany (w : list cond) (d : update_data) : op (prisma_error + nat)
| SendMail (m : mail) : op bool
| DateNow : op Z
| RandomBytes (n : nat) : op (list byte).

(** A handler body: it returns, throws, or makes a call and goes on with
    the answer. *)
Inductive prog (A : Type) : Type :=
| Ret (a : A)
| Throw (e : exn)
| Vis {T : Type} (o : op T) (k : T -> prog A).

Arguments Ret {A} a.
Arguments Throw {A} e.
Arguments Vis {A T} o k.

Fixpoint bind {A B : Type} (p : prog A) (f : A -> prog B) : prog B :=
  match p with
  | Ret a => f a
  | Throw e => Throw e
  | Vis o k => Vis o (fun r => bind (k r) f)
  end.

(** [try { p } catch (error) { h error }]. *)
Fixpoint try_catch {A : Type} (p : prog A) (h : exn -> prog A) : prog A :=
  match p with
  | Ret a => Ret a
  | Throw e => h e
  | Vis o k => Vis o (fun r => try_catch (k r) h)
  end.

Definition call {T : Type} (o : op T) : prog T := Vis o Ret.

(** [await prisma.user.<write>(...)]: a rejected promise throws. *)
Definition await {T : Type} (o : op (prisma_error + T)) : prog T :=
  Vis o (fun r => match r with
                  | inr v => Ret v
                  | inl e => Throw (PrismaRequestError e)
                  end).

Declare Scope prog_scope.
Delimit Scope prog_scope with prog.
Bind Scope prog_scope with prog.
Notation "x <- p ;; q" := (bind p (fun x => q))
  (at level 100, p at next level, right associativity) : prog_scope.
Notation "p ;; q" := (bind p (fun _ => q))
  (at level 100, right associativity) : prog_scope.

(** What one request sees of the outside world: the clock (one instant
    for the whole request), the random source, the cuid Prisma draws for a
    new row, whether the SMTP transport accepts the message,
    [process.env], and what the Prisma client makes of a value for
    [magicLinkToken] in a [where] object that is not a string: the test of
    the column it stands for, or [None] where Prisma refuses the value. *)
Record env : Type := mkEnv {
  clock : Z;
  entropy : nat -> byte;
  cuid : string;
  smtp_ok : bool;
  PORT : option string;
  JWT_SECRET : option string;
  token_filter : jsval -> option (option string -> bool);
}.

(** One call made against the table. *)
Definition exec {T : Type} (e : env) (o : op T) (s : store) : T * store :=
  match o in op T return T * store with
  | FindUnique w => (findFirst w s, s)
  | FindFirst w => (findFirst w s, s)
  | Update w d => update w d (clock e) s
  | Create d => create (cuid e) d (clock e) s
  | UpdateMany w d => updateMany w d (clock e) s
  | SendMail _ => (smtp_ok e, s)
  | DateNow => (clock e, s)
  | RandomBytes n => (entropy e <$> seq 0 n, s)
  end.

(** A call that was made, for the trace of a run. *)
Inductive event : Type :=
| Called {T : Type} (o : op T).

(** Running a program to its end, one request at a time: the result, the
    table afterwards and the calls made, in order. *)
Fixpoint run {A : Type} (e : env) (p : prog A) (s : store)
  : (exn + A) * store * list event :=
  match p with
  | Ret a => (inr a, s, [])
  | Throw x => (inl x, s, [])
  | Vis o k =>
      let '(r, s1) := exec e o s in
      let '(res, s2, tr) := run e (k r) s1 in
      (res, s2, Called o :: tr)
  end.

Definition is_db_write (ev : event) : bool :=
  match ev with
  | Called (Update _ _) | Called (Create _) | Called (UpdateMany _ _) => true
  | _ => false
  end.

(** The mails a run tried to send. *)
Definition mails (tr : list event) : list mail :=
  omap (fun ev => match ev with
                  | Called (SendMail m) => Some m
                  | _ => None
                  end) tr.

End Prog.

(** ** The endpoints of [index.js] *)

Module Api.
Import Js Db Prog.
Local Open Scope prog_scope.

(** The payload signed into the session cookie, with the [iat] and [exp]
    claims [jwt.sign] adds (seconds); the signature itself is not
    modelled. *)
Record jwt : Type := mkJwt {
  userId : string;
  jwt_email : string;
  jwt_verified : bool;
  iat : Z;
  exp : Z;
}.

(** [res.cookie('auth_token', value, options)]. *)
Record cookie : Type := mkCookie {
  cookie_name : string;
  cookie_value : jwt;
  httpOnly : bool;
  secure : bool;
  sameSite : string;
  maxAge : Z;
}.

(** The [data] member of a JSON answer. *)
Inductive payload : Type :=
| NoData
| Issued (email : string) (name : option string)
| Profile (id email : string) (name : option string) (verified : bool).

Record response : Type := mkResponse {
  status : Z;
  success : bool;
  message : string;
  data : payload;
  set_cookie : option cookie;
}.

(** [res.status(code).json({ success: false, message })]. *)
Definition failure (code : Z) (msg : string) : response :=
  {| status := code; success := false; message := msg;
     data := NoData; set_cookie := None |}.

(** A [process.env] entry inside a template literal. *)
Definition env_text (v : option string) : string := default "undefined" v.

(** [!email || !email.includes('@')]. *)
Definition email_rejected (email : jsval) : prog bool :=
  if negb (truthy email) then Ret true
  else match js_includes email "@" with
       | Some b => Ret (negb b)
       | None => Throw TypeError
       end.

(** A required [String] argument of a Prisma call. *)
Definition string_arg (v : jsval) : prog string :=
  match v with
  | JStr s => Ret s
  | _ => Throw PrismaValidationError
  end.

(** An optional [String?] field of the [data] object of a create:
    [undefined] leaves it out, [null] stores NULL. *)
Definition nullable_string_field (v : jsval) : prog (option (option string)) :=
  match v with
  | JUndefined => Ret None
  | JNull => Ret (Some None)
  | JStr s => Ret (Some (Some s))
  | _ => Throw PrismaValidationError
  end.

(** The value of the update operation [{ set: value }], if [v] is that
    object. *)
Definition set_operation (v : jsval) : option jsval :=
  match v with
  | JObj [(k, x)] => if String.eqb k "set" then Some x else None
  | _ => None
  end.

(** The same field in the [data] object of an update, which takes the
    update operation [{ set: value }], with a string or [null], as
    well. *)
Definition nullable_string_update (v : jsval) : prog (option (option string)) :=
  match set_operation v with
  | Some (JStr s) => Ret (Some (Some s))
  | Some JNull => Ret (Some None)
  | Some _ => Throw PrismaValidationError
  | None => nullable_string_field v
  end.

(** The condition on [magicLinkToken] that Prisma makes of the value given
    for it in a [where] object: a string is compared for equality, any
    other value is a filter on the column or is refused. *)
Definition token_cond (e : env) (token : jsval) : option cond :=
  match token with
  | JStr t => Some (TokenIs t)
  | _ => TokenMatches <$> token_filter e token
  end.

Definition token_arg (e : env) (token : jsval) : prog cond :=
  match token_cond e token with
  | Some w => Ret w
  | None => Throw PrismaValidationError
  end.

(** [crypto.randomBytes(32).toString('hex')]. *)
Definition new_token : prog string :=
  bytes <- call (RandomBytes 32);;
  Ret (Hex.toString bytes).

(** [new Date(Date.now() + 15 * 60 * 1000)]. *)
Definition new_expiry : prog Z :=
  now <- call DateNow;;
  Ret (now + 15 * 60 * 1000).

Definition magicLinkUrl (e : env) (token : string) : string :=
  "http://localhost:" +:+ env_text (PORT e) +:+ "/?token=" +:+ token.

(** [sendMagicLinkEmail]: a failed [sendMail] is rethrown. *)
Definition sendMagicLinkEmail (email : string) (name : jsval) (url : string)
  : prog unit :=
  sent <- call (SendMail {| mail_to := email; mail_name := name; mail_link := url |});;
  if sent : bool then Ret tt else Throw MailError.

(** The token columns every issuance writes. *)
Definition issue_data (nm : option (option string)) (token : string) (expiresAt : Z)
  : update_data :=
  {| set_name := nm;
     set_verified := None;
     set_magicLinkToken := Some (Some token);
     set_magicLinkExpires := Some (Some expiresAt);
     set_magicLinkUsed := Some false |}.

(** [POST /api/auth/signup]. *)
Definition signup (e : env) (email name : jsval) : prog response :=
  try_catch
    (rejected <- email_rejected email;;
     if rejected : bool then Ret (failure 400 "Valid email is required")
     else
       addr <- string_arg email;;
       user <- call (FindUnique [EmailIs addr]);;
       if match user with Some u => verified u | None => false end
       then Ret (failure 409 "Account already exists and verified")
       else
         token <- new_token;;
         expiresAt <- new_expiry;;
         user' <- match user with
                  | Some u =>
                      nm <- nullable_string_update (js_or name (of_db (Db.name u)));;
                      await (Update [EmailIs addr] (issue_data nm token expiresAt))
                  | None =>
                      nm <- nullable_string_field name;;
                      await (Create {| new_email := addr;
                                       new_name := default None nm;
                                       new_magicLinkToken := Some token;
                                       new_magicLinkExpires := Some expiresAt;
                                       new_magicLinkUsed := false |})
                  end;;
         sendMagicLinkEmail addr name (magicLinkUrl e token);;
         Ret {| status := 200; success := true;
                message := "Verification link sent to your email! Check your inbox.";
                data := Issued (Db.email user') (Db.name user');
                set_cookie := None |})
    (fun _ => Ret (failure 500 "Failed to create account. Please try again.")).

(** [POST /api/auth/login]. *)
Definition login (e : env) (email : jsval) : prog response :=
  try_catch
    (rejected <- email_rejected email;;
     if rejected : bool then Ret (failure 400 "Valid email is required")
     else
       addr <- string_arg email;;
       user <- call (FindUnique [EmailIs addr]);;
       match user with
       | Some u =>
           if negb (verified u)
           then Ret (failure 404 "No verified account found with this email")
           else
             token <- new_token;;
             expiresAt <- new_expiry;;
             await (Update [EmailIs addr] (issue_data None token expiresAt));;
             sendMagicLinkEmail addr (of_db (Db.name u)) (magicLinkUrl e token);;
             Ret {| status := 200; success := true;
                    message := "Login link sent to your email! Check your inbox.";
                    data := Issued (Db.email u) (Db.name u);
                    set_cookie := None |}
       | None => Ret (failure 404 "No verified account found with this email")
       end)
    (fun _ => Ret (failure 500 "Failed to send login link. Please try again.")).

(** [jwt.sign(payload, secret, { expiresIn: '7d' })]: refuses a missing or
    empty secret. *)
Definition jwt_sign (uid mail : string) (secret : option string) : prog jwt :=
  match secret with
  | Some (String _ _) =>
      now <- call DateNow;;
      let issued := now / 1000 in
      Ret {| userId := uid; jwt_email := mail; jwt_verified := true;
             iat := issued; exp := issued + 7 * 24 * 60 * 60 |}
  | _ => Throw JwtError
  end.

(** The write that claims a token. *)
Definition claim_data : update_data :=
  {| set_name := None;
     set_verified := Some true;
     set_magicLinkToken := Some None;
     set_magicLinkExpires := Some None;
     set_magicLinkUsed := Some true |}.

(** [GET /api/auth/verify], with [req.query.token] as the query parser
    delivers it: [undefined] for a missing key, a string for [?token=...],
    an array for a repeated key and an object for a bracketed one
    ([?token[not]=x] is [{ not: 'x' }]). The value goes into the [where]
    object as it is. *)
Definition verify (e : env) (token : jsval) : prog response :=
  try_catch
    (if negb (truthy token)
     then Ret (failure 400 "Verification token is required")
     else
       now <- call DateNow;;
       w <- token_arg e token;;
       user <- call (FindFirst [w; UsedIs false; ExpiresGt now]);;
       match user with
       | None => Ret (failure 400 "Invalid or expired verification link")
       | Some u =>
           updatedUser <- await (Update [IdIs (Db.id u)] claim_data);;
           jwtToken <- jwt_sign (Db.id u) (Db.email u) (JWT_SECRET e);;
           Ret {| status := 200; success := true;
                  message := "Successfully authenticated! Welcome back!";
                  data := Profile (Db.id updatedUser) (Db.email updatedUser)
                                  (Db.name updatedUser) (verified updatedUser);
                  set_cookie := Some {| cookie_name := "auth_token";
                                        cookie_value := jwtToken;
                                        httpOnly := true;
                                        secure := false;
                                        sameSite := "lax";
                                        maxAge := 7 * 24 * 60 * 60 * 1000 |} |}
       end)
    (fun _ => Ret (failure 500 "Verification failed. Please try again.")).

(** [POST /api/auth/resend-verification]. *)
Definition resend (e : env) (email : jsval) : prog response :=
  try_catch
    (rejected <- email_rejected email;;
     if rejected : bool then Ret (failure 400 "Valid email is required")
     else
       addr <- string_arg email;;
       user <- call (FindUnique [EmailIs addr]);;
       match user with
       | None => Ret (failure 404 "No account found with this email")
       | Some u =>
           if verified u
           then Ret (failure 400 "Account is already verified")
           else
             token <- new_token;;
             expiresAt <- new_expiry;;
             await (Update [EmailIs addr] (issue_data None token expiresAt));;
             sendMagicLinkEmail addr (of_db (Db.name u)) (magicLinkUrl e token);;
             Ret {| status := 200; success := true;
                    message := "New verification link sent to your email!";
                    data := Issued (Db.email u) (Db.name u);
                    set_cookie := None |}
       end)
    (fun _ => Ret (failure 500 "Failed to send verification link. Please try again.")).

(** The columns the cleanup resets. *)
Definition cleanup_data : update_data :=
  {| set_name := None;
     set_verified := None;
     set_magicLinkToken := Some None;
     set_magicLinkExpires := Some None;
     set_magicLinkUsed := Some false |}.

(** [cleanupExpiredTokens], run every hour; it answers with the number of
    rows it logged as cleaned. *)
Definition cleanupExpiredTokens : prog nat :=
  try_catch
    (now <- call DateNow;;
     await (UpdateMany [ExpiresLt now; TokenNotNull] cleanup_data))
    (fun _ => Ret 0%nat).

End Api.

(** ** The server, one request at a time *)

Module Server.
Import Js Db Prog Api.

Inductive request : Type :=
| Signup (email name : jsval)
| Login (email : jsval)
| Verify (token : jsval)
| Resend (email : jsval)
| Cleanup.

(** The table after serving one request. *)
Definition serve (e : env) (r : request) (s : store) : store :=
  match r with
  | Signup email name => (run e (signup e email name) s).1.2
  | Login email => (run e (login e email) s).1.2
  | Verify token => (run e (verify e token) s).1.2
  | Resend email => (run e (resend e email) s).1.2
  | Cleanup => (run e cleanupExpiredTokens s).1.2
  end.

(** What the client is answered; the cleanup answers nobody. *)
Definition reply (e : env) (r : request) (s : store) : option (exn + response) :=
  match r with
  | Signup email name => Some (run e (signup e email name) s).1.1
  | Login email => Some (run e (login e email) s).1.1
  | Verify token => Some (run e (verify e token) s).1.1
  | Resend email => Some (run e (resend e email) s).1.1
  | Cleanup => None
  end.

(** The calls made while serving one request. *)
Definition trace (e : env) (r : request) (s : store) : list event :=
  match r with
  | Signup email name => (run e (signup e email name) s).2
  | Login email => (run e (login e email) s).2
  | Verify token => (run e (verify e token) s).2
  | Resend email => (run e (resend e email) s).2
  | Cleanup => (run e cleanupExpiredTokens s).2
  end.

(** The table after serving a sequence of requests, each with its own view
    of the outside world. *)
Fixpoint serve_all (rs : list (env * request)) (s : store) : store :=
  match rs with
  | [] => s
  | (e, r) :: rest => serve_all rest (serve e r s)
  end.

(** The tables the server can get into from an empty database. *)
Definition reachable (s : store) : Prop :=
  exists rs : list (env * request), s = serve_all rs [].

(** The token a request draws if it gets as far as issuing one. *)
Definition drawn (e : env) : string := Hex.toString (entropy e <$> seq 0 32).

(** What holds of every reachable table: the schema's constraints, every
    stored address passed the address check, and every stored token came
    out of the generator. *)
Definition well_formed (s : store) : bool :=
  constraints_ok s &&
  forallb (fun u => includes (Db.email u) "@") s &&
  forallb (fun t => Nat.eqb (String.length t) 64) (tokens s).

End Server.

(** ** Requests in flight together *)

Module Sched.
Import Db Prog Api.

(** A request in flight: its view of the outside world and what is left of
    its handler. *)
Record thread : Type := mkThread {
  thread_env : env;
  thread_prog : prog response;
}.

(** The next call of a thread, made against the table as it is now. *)
Definition step (t : thread) (s : store) : thread * store :=
  match thread_prog t with
  | Vis o k =>
      let '(r, s') := exec (thread_env t) o s in
      ({| thread_env := thread_env t; thread_prog := k r |}, s')
  | _ => (t, s)
  end.

(** Threads take turns as the schedule names them. A handler gives up
    control only at an [await], so the schedules of the real server are
    those that switch threads right after a database or mail call. *)
Fixpoint interleave (schedule : list nat) (ts : list thread) (s : store)
  : list thread * store :=
  match schedule with
  | [] => (ts, s)
  | i :: rest =>
      match ts !! i with
      | Some t =>
          let '(t', s') := step t s in
          interleave rest (<[i := t']> ts) s'
      | None => interleave rest ts s
      end
  end.

(** What is left of a handler that has run to its end. *)
Definition finished {A : Type} (res : exn + A) : prog A :=
  match res with
  | inr a => Ret a
  | inl x => Throw x
  end.

(** What a thread has answered, once its handler is done. *)
Definition answer (t : thread) : option response :=
  match thread_prog t with
  | Ret r => Some r
  | _ => None
  end.

End Sched.

(** ** Vocabulary of the properties *)

Module Props.
Import Js Db Prog Api Server.

(** A request to one of the three issuing endpoints, with the [email]
    member of its body. *)
Inductive addressed (email : jsval) : request -> Prop :=
| addressed_signup (name : jsval) : addressed email (Signup email name)
| addressed_login : addressed email (Login email)
| addressed_resend : addressed email (Resend email).

(** A request that asks for a magic link for the address [addr]. *)
Abbreviation issuance addr := (addressed (JStr addr)).

(** The string [a] contains the character '@'. *)
Definition has_at (a : string) : Prop :=
  exists pre post, a = pre +:+ String "@" post.

(** The answer to a missing or malformed address. *)
Definition invalid_input : response := failure 400 "Valid email is required".

(** Request [r], served with outside world [e], draws token [t] if it gets
    as far as issuing one. *)
Definition draws (e : env) (r : request) (t : string) : Prop :=
  match r with
  | Signup _ _ | Login _ | Resend _ => drawn e = t
  | Verify _ | Cleanup => False
  end.

(** The expiry an issuance served with outside world [e] stores. *)
Definition expiry (e : env) : Z := clock e + 15 * 60 * 1000.

(** The same outside world with a transport that does or does not accept
    the message. *)
Definition with_smtp (ok : bool) (e : env) : env :=
  {| clock := clock e; entropy := entropy e; cuid := cuid e; smtp_ok := ok;
     PORT := PORT e; JWT_SECRET := JWT_SECRET e;
     token_filter := token_filter e |}.

(** The message of the 500 answer of each endpoint. *)
Definition internal_error (r : request) : response :=
  failure 500
    match r with
    | Signup _ _ => "Failed to create account. Please try again."
    | Login _ => "Failed to send login link. Please try again."
    | Resend _ => "Failed to send verification link. Please try again."
    | Verify _ | Cleanup => "Verification failed. Please try again."
    end.

(** What an issuance for [addr] has stored once its write is through: the
    row of [addr], refreshed or newly created, holds the token drawn from
    [e], unused, with the expiry of [e]. *)
Definition persisted (e : env) (addr : string) (s s' : store) : Prop :=
  constraints_ok s' = true /\
  ((exists u nm,
       findFirst [EmailIs addr] s = Some u /\
       s' = write_where [EmailIs addr] (issue_data nm (drawn e) (expiry e))
              (clock e) s) \/
   (exists nm,
       findFirst [EmailIs addr] s = None /\
       s' = s ++ [new_row (cuid e) (clock e)
                    {| new_email := addr;
                       new_name := nm;
                       new_magicLinkToken := Some (drawn e);
                       new_magicLinkExpires := Some (expiry e);
                       new_magicLinkUsed := false |}])).

(** A row that holds the token drawn from [e], live until the expiry of
    [e]. *)
Definition holds_token (e : env) (u : User) : Prop :=
  magicLinkToken u = Some (drawn e) /\
  magicLinkExpires u = Some (expiry e) /\
  magicLinkUsed u = false.

(** A truthy [name] that Prisma's update takes: a string, or the
    operation [{ set: value }] with a string or [null]. *)
Definition name_taken (name : jsval) : bool :=
  match set_operation name with
  | Some (JStr _) | Some JNull => true
  | Some _ => false
  | None => match name with JStr _ => true | _ => false end
  end.

(** What an issuing endpoint checks of the row it found before it draws a
    token: signup and resend want it unverified, login wants it verified,
    and signup hands a truthy [name] to Prisma's update. *)
Definition gate (r : request) (u : User) : bool :=
  match r with
  | Signup _ name =>
      negb (verified u) && (negb (truthy name) || name_taken name)
  | Login _ => verified u
  | Resend _ => negb (verified u)
  | Verify _ | Cleanup => false
  end.

(** The calls of an issuance that got as far as the notifier: the lookup,
    the draw, the clock, one write, and the mail with the link. *)
Definition issuance_calls (e : env) (addr : string) (tr : list event) : Prop :=
  exists (T : Type) (w : op T) (name : jsval),
    is_db_write (Called w) = true /\
    tr = [Called (FindUnique [EmailIs addr]); Called (RandomBytes 32);
          Called DateNow; Called w;
          Called (SendMail {| mail_to := addr; mail_name := name;
                              mail_link := magicLinkUrl e (drawn e) |})].

(** The rows the cleanup is after: the expiry is in the past and a token
    is still stored. *)
Definition past_expiry (now : Z) (u : User) : Prop :=
  (exists x, magicLinkExpires u = Some x /\ x < now) /\
  (exists t, magicLinkToken u = Some t).

(** The answer to a token that matches no live row. *)
Definition invalid_or_expired : response :=
  failure 400 "Invalid or expired verification link".

(** What serving one request can do to the table: nothing, or exactly one
    write that the database accepted. *)
Inductive transition (e : env) (s : store) : request -> store -> Prop :=
| t_none (r : request) : transition e s r s
| t_create (addr : string) (name : jsval) (nm : option string) (s' : store) :
    includes addr "@" = true ->
    findFirst [EmailIs addr] s = None ->
    s' = s ++ [new_row (cuid e) (clock e)
                 {| new_email := addr;
                    new_name := nm;
                    new_magicLinkToken := Some (drawn e);
                    new_magicLinkExpires := Some (expiry e);
                    new_magicLinkUsed := false |}] ->
    constraints_ok s' = true ->
    transition e s (Signup (JStr addr) name) s'
| t_issue (r : request) (addr : string) (nm : option (option string))
    (u : User) (s' : store) :
    issuance addr r ->
    includes addr "@" = true ->
    findFirst [EmailIs addr] s = Some u ->
    s' = write_where [EmailIs addr] (issue_data nm (drawn e) (expiry e)) (clock e) s ->
    constraints_ok s' = true ->
    transition e s r s'
| t_claim (token : jsval) (w : cond) (u : User) (s' : store) :
    truthy token = true ->
    token_cond e token = Some w ->
    findFirst [w; UsedIs false; ExpiresGt (clock e)] s = Some u ->
    s' = write_where [IdIs (Db.id u)] claim_data (clock e) s ->
    constraints_ok s' = true ->
    transition e s (Verify token) s'
| t_sweep (s' : store) :
    s' = write_where [ExpiresLt (clock e); TokenNotNull] cleanup_data (clock e) s ->
    constraints_ok s' = true ->
    transition e s Cleanup s'.

End Props.

(** ** A run of the server, for the examples *)

Module Scenario.
Import Js Db Prog Api Server Sched.

(** Prisma's reading of the filter object [{ not: x }] on a nullable
    string column: the rows whose column is not NULL and differs from [x].
    The examples present no other value that is not a string. *)
Definition not_filter (v : jsval) : option (option string -> bool) :=
  match v with
  | JObj [(k, JStr x)] =>
      if String.eqb k "not"
      then Some (fun c => match c with
                          | Some t => negb (String.eqb t x)
                          | None => false
                          end)
      else None
  | _ => None
  end.

Definition world (now : Z) (fill : byte) (c : string) (mail_ok : bool) : env :=
  {| clock := now; entropy := fun _ => fill; cuid := c; smtp_ok := mail_ok;
     PORT := Some "5001"; JWT_SECRET := Some "secret";
     token_filter := not_filter |}.

Definition alice : jsval := JStr "a@x.com".

(** Alice signs up at second 1; her token is sixty-four zeros and expires
    fifteen minutes later. *)
Definition at_signup : env := world 1000 x00 "cuid-1" true.
Definition T1 : string := drawn at_signup.
Definition issued : store := serve at_signup (Signup alice (JStr "A")) [].

Definition alice_issued : User :=
  {| id := "cuid-1"; email := "a@x.com"; name := Some "A"; verified := false;
     magicLinkToken := Some T1; magicLinkExpires := Some 901000;
     magicLinkUsed := false; createdAt := 1000; updatedAt := 1000 |}.

(** She clicks the link a minute later. *)
Definition at_click : env := world 60000 xff "cuid-2" true.
Definition claimed : store := serve at_click (Verify (JStr T1)) issued.

Definition alice_verified : User :=
  {| id := "cuid-1"; email := "a@x.com"; name := Some "A"; verified := true;
     magicLinkToken := None; magicLinkExpires := None;
     magicLinkUsed := true; createdAt := 1000; updatedAt := 60000 |}.

(** Later requests draw other tokens. *)
Definition at_again : env := world 120000 xff "cuid-3" true.
Definition at_outage : env := world 120000 x11 "cuid-4" false.
Definition at_retry : env := world 180000 x22 "cuid-5" true.

(** Half an hour after the signup the token has expired. *)
Definition too_late : env := world 1801000 xff "cuid-6" true.

(** Two clicks on the same link, both looking the token up before either
    claims it. *)
Definition two_clicks : list thread :=
  [ {| thread_env := at_click; thread_prog := verify at_click (JStr T1) |};
    {| thread_env := at_click; thread_prog := verify at_click (JStr T1) |} ].

Definition overlapped : list nat := [0; 0; 1; 1; 0; 0; 1; 1]%nat.

(** The same two clicks, one after the other. *)
Definition in_turn : list nat := [0; 0; 0; 0; 1; 1; 1; 1]%nat.

(** Bea signs up a second later; her token is sixty-four threes. Both
    links are live when somebody opens [/api/auth/verify?token[not]=x],
    twice. *)
Definition at_second : env := world 2000 x33 "cuid-b" true.
Definition two_live : store := serve at_second (Signup (JStr "b@x.com") JNull) issued.
Definition any_but_x : jsval := JObj [("not", JStr "x")].

Definition bea_issued : User :=
  {| id := "cuid-b"; email := "b@x.com"; name := None; verified := false;
     magicLinkToken := Some (drawn at_second); magicLinkExpires := Some 902000;
     magicLinkUsed := false; createdAt := 2000; updatedAt := 2000 |}.

End Scenario.

(** ** The session endpoints: [GET /api/me] and [POST /api/auth/logout] *)

Module Session.
Import Js Db Prog Api.

(** The value of the [auth_token] cookie as [jwt.verify] can tell it
    apart: text that is no JWT, or a JWT with its claims and the key its
    signature was made with. A signature checks out exactly under the key
    that made it. *)
Inductive credential : Type :=
| NotAToken (text : string)
| Signed (key : string) (claims : jwt).

(** [jwt.verify(token, secret)]: the clock is read first; a missing
    secret, text that is no JWT, a signature made with another key and an
    [exp] at or before the clock (in seconds) all throw. *)
Definition jwt_verify (c : credential) (secret : option string) : prog jwt :=
  (now <- call DateNow;;
   match c, secret with
   | Signed key claims, Some (String _ _ as k) =>
       if negb (String.eqb key k) then Throw JwtError
       else if exp claims <=? now / 1000 then Throw JwtError
       else Ret claims
   | _, _ => Throw JwtError
   end)%prog.

(** The [user] object of the answer of [/api/me]. *)
Record me_user : Type := mkMeUser {
  me_id : string;
  me_email : string;
  me_name : option string;
  me_verified : bool;
  me_createdAt : Z;
}.

(** The answer of [/api/me]; its 200 carries no message. *)
Record me_response : Type := mkMeResponse {
  me_status : Z;
  me_success : bool;
  me_message : option string;
  me_data : option me_user;
}.

(** [res.status(401).json({ success: false, message })]. *)
Definition unauthorized (msg : string) : me_response :=
  {| me_status := 401; me_success := false; me_message := Some msg;
     me_data := None |}.

Definition profile_of (u : User) : me_user :=
  {| me_id := Db.id u; me_email := Db.email u; me_name := Db.name u;
     me_verified := verified u; me_createdAt := createdAt u |}.

(** [GET /api/me], with [req.cookies.auth_token]. *)
Definition me (e : env) (cookie : option credential) : prog me_response :=
  try_catch
    (match cookie with
     | None | Some (NotAToken EmptyString) =>
         Ret (unauthorized "Authentication required")
     | Some token =>
         decoded <- jwt_verify token (JWT_SECRET e);;
         user <- call (FindUnique [IdIs (userId decoded)]);;
         match user with
         | None => Ret (unauthorized "User not found")
         | Some u =>
             Ret {| me_status := 200; me_success := true; me_message := None;
                    me_data := Some (profile_of u) |}
         end
     end)%prog
    (fun _ => Ret (unauthorized "Invalid token")).

(** The answer of logout: the cookie it tells the browser to drop, and the
    JSON body. *)
Record logout_response : Type := mkLogout {
  clearCookie : string;
  logout_body : response;
}.

(** [POST /api/auth/logout]. *)
Definition logout : prog logout_response :=
  Ret {| clearCookie := "auth_token";
         logout_body := {| status := 200; success := true;
                           message := "Successfully logged out";
                           data := NoData; set_cookie := None |} |}.

(** The cookie value the browser holds after an answer of [verify] served
    with outside world [e]. *)
Definition credential_of (e : env) (r : response) : option credential :=
  match JWT_SECRET e, set_cookie r with
  | Some k, Some c => Some (Signed k (cookie_value c))
  | _, _ => None
  end.

End Session.

(** ** More vocabulary *)

Module More.
Import Js Db Prog Api Server Sched Props Session.

(** The 200 answer of [verify] for the row [u] it found, served with
    outside world [e]. *)
Definition welcome (e : env) (u : User) : response :=
  {| status := 200; success := true;
     message := "Successfully authenticated! Welcome back!";
     data := Profile (Db.id u) (Db.email u) (Db.name u) true;
     set_cookie :=
       Some {| cookie_name := "auth_token";
               cookie_value := {| userId := Db.id u; jwt_email := Db.email u;
                                  jwt_verified := true;
                                  iat := clock e / 1000;
                                  exp := clock e / 1000 + 7 * 24 * 60 * 60 |};
               httpOnly := true; secure := false; sameSite := "lax";
               maxAge := 7 * 24 * 60 * 60 * 1000 |} |}.

(** The condition of [verify]'s lookup. *)
Definition live (t : string) (now : Z) : list cond :=
  [TokenIs t; UsedIs false; ExpiresGt now].

(** The calls of a [verify] that found a row. *)
Definition claim_calls (e : env) (t : string) (u : User) : list event :=
  [Called DateNow; Called (FindFirst (live t (clock e)));
   Called (Update [IdIs (Db.id u)] claim_data)].

(** A row as [verify] leaves it. *)
Definition claimed_row (now : Z) (u : User) : User :=
  apply_update claim_data now u.

(** The signing secret is set. *)
Definition has_secret (e : env) : Prop :=
  exists c k, JWT_SECRET e = Some (String c k).

(** The [email] member of the body of an issuing request. *)
Definition email_of (r : request) : jsval :=
  match r with
  | Signup email _ | Login email | Resend email => email
  | Verify _ | Cleanup => JUndefined
  end.

(** The name an existing row has after an issuance for it: signup with a
    non-empty string or with the operation [{ set: value }] replaces it,
    everything else keeps it. *)
Definition stored_name (r : request) (u : User) : option string :=
  match r with
  | Signup _ (JStr (String c n)) => Some (String c n)
  | Signup _ name =>
      match set_operation name with
      | Some (JStr n) => Some n
      | Some JNull => None
      | _ => Db.name u
      end
  | _ => Db.name u
  end.

(** The name of a row that signup creates. *)
Definition created_name (name : jsval) : option string :=
  match name with
  | JStr n => Some n
  | _ => None
  end.

(** The row that signup creates for [addr]. *)
Definition created_row (e : env) (addr : string) (name : jsval) : User :=
  new_row (cuid e) (clock e)
    {| new_email := addr;
       new_name := created_name name;
       new_magicLinkToken := Some (drawn e);
       new_magicLinkExpires := Some (expiry e);
       new_magicLinkUsed := false |}.

(** A name that Prisma takes for a new row. *)
Definition name_storable (name : jsval) : Prop :=
  name = JUndefined \/ name = JNull \/ exists n, name = JStr n.

(** A name of a JSON type that no [String?] field takes: a boolean, a
    number or an array. *)
Definition name_refused (name : jsval) : Prop :=
  (exists b, name = JBool b) \/ (exists z, name = JNum z) \/
  (exists l, name = JArr l).

(** What holds of every row of a reachable table: token and expiry are
    stored together, and a row marked used holds no token and is
    verified. *)
Definition row_consistent (u : User) : Prop :=
  (magicLinkToken u = None <-> magicLinkExpires u = None) /\
  (magicLinkUsed u = true -> magicLinkToken u = None /\ verified u = true).

(** A character of a hex string. *)
Definition hex_char (c : ascii) : Prop :=
  In c (list_ascii_of_string "0123456789abcdef").

(** The value of a hex digit. *)
Definition undigit (c : ascii) : N :=
  match c with
  | "0" => 0 | "1" => 1 | "2" => 2 | "3" => 3 | "4" => 4 | "5" => 5
  | "6" => 6 | "7" => 7 | "8" => 8 | "9" => 9 | "a" => 10 | "b" => 11
  | "c" => 12 | "d" => 13 | "e" => 14 | _ => 15
  end%char%N.

(** The 200 answer of signup. *)
Definition signed_up (addr : string) (name : option string) : response :=
  {| status := 200; success := true;
     message := "Verification link sent to your email! Check your inbox.";
     data := Issued addr name; set_cookie := None |}.

(** The condition of the cleanup's [updateMany]. *)
Definition sweep (now : Z) : list cond := [ExpiresLt now; TokenNotNull].

(** Two openings of the signup form for the same new address, both looking
    the address up before either creates the row. *)
Definition two_signups (e1 e2 : env) (addr : string) (n1 n2 : jsval)
  : list thread :=
  [ {| thread_env := e1; thread_prog := signup e1 (JStr addr) n1 |};
    {| thread_env := e2; thread_prog := signup e2 (JStr addr) n2 |} ].

Definition lookups_first : list nat := [0; 1; 0; 0; 0; 0; 1; 1; 1]%nat.

(** Bob asks for an account while Alice holds hers. *)
Definition bob : jsval := JStr "b@x.com".
Definition at_bob : env := Scenario.world 130000 x33 "cuid-7" true.
Definition at_bob_too : env := Scenario.world 130000 x44 "cuid-8" true.

(** A world without a signing secret. *)
Definition no_secret : env :=
  {| clock := 60000; entropy := fun _ => xff; cuid := "cuid-9"; smtp_ok := true;
     PORT := Some "5001"; JWT_SECRET := None;
     token_filter := Scenario.not_filter |}.

(** The cookie Alice holds after her click. *)
Definition alice_cookie : credential :=
  Signed "secret"
    {| userId := "cuid-1"; jwt_email := "a@x.com"; jwt_verified := true;
       iat := 60; exp := 604860 |}.

End More.

Import Js Db Prog Api Server Sched Props.

(** ** Tactics: running a handler through its cases *)

Ltac case_step :=
  match goal with
  | |- context [match ?x with _ => _ end] =>
      lazymatch x with
      | context [match _ with _ => _ end] => fail
      | _ => destruct x eqn:?
      end
  end.

Ltac run_cases :=
  unfold signup, login, verify, resend, cleanupExpiredTokens,
    email_rejected, string_arg, nullable_string_update,
    nullable_string_field, token_arg, new_token,
    new_expiry, sendMagicLinkEmail, jwt_sign, call, await;
  repeat (cbn [run bind try_catch exec fst snd token_cond]; try case_step).

Ltac passed_check :=
  match goal with
  | H : js_includes (JStr ?a) "@" = Some ?b, H' : negb ?b = false |- _ =>
      destruct b; [| discriminate H']; cbn [js_includes] in H;
      injection H as H
  end.

Ltac written :=
  match goal with
  | H : update _ _ _ _ = (inr _, _) |- _ =>
      unfold update in H; repeat case_match; simplify_eq
  | H : update _ _ _ _ = (inl _, _) |- _ =>
      unfold update in H; repeat case_match; simplify_eq
  | H : create _ _ _ _ = _ |- _ =>
      unfold create in H; repeat case_match; simplify_eq
  | H : updateMany _ _ _ _ = _ |- _ =>
      unfold updateMany in H; repeat case_match; simplify_eq
  end.

Ltac calls_shown :=
  unfold issuance_calls; do 3 eexists; split; [| reflexivity]; reflexivity.

(** ** Strings *)

Lemma prefix_at (s : string) :
  String.prefix "@" s = true <-> exists post, s = String "@" post.
Proof.
  destruct s as [|c s]; cbn [String.prefix].
  - split; [discriminate | intros [post H]; discriminate].
  - destruct (ascii_dec "@" c) as [<-|Hne].
    + split; [eauto | intros _; by destruct s].
    + split; [discriminate | intros [post H]; congruence].
Qed.

Lemma includes_at (s : string) :
  includes s "@" = true <-> exists pre post, s = pre +:+ String "@" post.
Proof.
  induction s as [|c s IH].
  - simpl. split; [discriminate |].
    intros (pre & post & H). destruct pre; discriminate.
  - cbn [includes]. rewrite orb_true_iff, prefix_at, IH. split.
    + intros [[post ->] | (pre & post & ->)].
      * by exists "", post.
      * by exists (String c pre), post.
    + intros (pre & post & H). destruct pre as [|c' pre]; simpl in H.
      * left. eauto.
      * right. injection H as -> ->. eauto.
Qed.

Lemma toString_length (bs : list byte) :
  String.length (Hex.toString bs) = (2 * List.length bs)%nat.
Proof. induction bs as [|b bs IH]; simpl; [done | rewrite IH; lia]. Qed.

Lemma drawn_length (e : env) : String.length (drawn e) = 64%nat.
Proof. unfold drawn. by rewrite toString_length, length_fmap, length_seq. Qed.

(** ** The table *)

Lemma constraints_ok_spec (s : store) :
  constraints_ok s = true <->
  NoDup (id <$> s) /\ NoDup (email <$> s) /\ NoDup (tokens s).
Proof.
  unfold constraints_ok. rewrite !andb_true_iff, !bool_decide_eq_true. tauto.
Qed.

Lemma findFirst_Some (w : list cond) (s : store) (u : User) :
  findFirst w s = Some u -> u ∈ s /\ matches w u = true.
Proof.
  unfold findFirst. intros H. apply find_some in H as [Hin Hm].
  split; [by apply list_elem_of_In | done].
Qed.

Lemma findFirst_None (w : list cond) (s : store) (u : User) :
  findFirst w s = None -> u ∈ s -> matches w u = false.
Proof.
  unfold findFirst. intros H Hin. apply list_elem_of_In in Hin.
  by apply (find_none _ _ H).
Qed.

Lemma findFirst_is_Some (w : list cond) (s : store) (u : User) :
  u ∈ s -> matches w u = true -> exists v, findFirst w s = Some v.
Proof.
  intros Hin Hm. destruct (findFirst w s) as [v|] eqn:Hf; [eauto |].
  rewrite (findFirst_None _ _ _ Hf Hin) in Hm. discriminate.
Qed.

Lemma elem_of_tokens (s : store) (t : string) :
  t ∈ tokens s <-> exists u, u ∈ s /\ magicLinkToken u = Some t.
Proof. unfold tokens. apply list_elem_of_omap. Qed.

Lemma unique_by {A : Type} (f : User -> A) (s : store) (u v : User) :
  NoDup (f <$> s) -> u ∈ s -> v ∈ s -> f u = f v -> u = v.
Proof.
  induction s as [|x s IH]; [by intros _ ?%elem_of_nil |].
  rewrite fmap_cons, NoDup_cons, !elem_of_cons.
  intros [Hx Hnd] [->|Hu] [->|Hv] Heq; [done | | | by apply IH].
  - destruct Hx. rewrite Heq. by apply list_elem_of_fmap_2.
  - destruct Hx. rewrite <- Heq. by apply list_elem_of_fmap_2.
Qed.

Lemma unique_token (s : store) (u v : User) (t : string) :
  NoDup (tokens s) -> u ∈ s -> v ∈ s ->
  magicLinkToken u = Some t -> magicLinkToken v = Some t -> u = v.
Proof.
  unfold tokens. induction s as [|x s IH]; [by intros _ ?%elem_of_nil |].
  intros Hnd Hu Hv Htu Htv. apply elem_of_cons in Hu, Hv. cbn [omap list_omap] in Hnd.
  assert (Hx : forall y, y ∈ s -> magicLinkToken y = Some t ->
                         magicLinkToken x = Some t -> False).
  { intros y Hy Hty Htx. rewrite Htx in Hnd. apply NoDup_cons in Hnd as [Hn _].
    apply Hn, list_elem_of_omap. eauto. }
  assert (Hs : NoDup (omap magicLinkToken s)).
  { destruct (magicLinkToken x); [by apply NoDup_cons in Hnd as [_ ?] | done]. }
  destruct Hu as [->|Hu], Hv as [->|Hv]; [done | | | by apply IH].
  - by destruct (Hx v).
  - by destruct (Hx u).
Qed.

Lemma write_where_ids (w : list cond) (d : update_data) (now : Z) (s : store) :
  id <$> write_where w d now s = id <$> s.
Proof.
  unfold write_where. rewrite <- list_fmap_compose. apply list_fmap_ext.
  intros i u _. simpl. by destruct (matches w u).
Qed.

Lemma write_where_emails (w : list cond) (d : update_data) (now : Z) (s : store) :
  email <$> write_where w d now s = email <$> s.
Proof.
  unfold write_where. rewrite <- list_fmap_compose. apply list_fmap_ext.
  intros i u _. simpl. by destruct (matches w u).
Qed.

Lemma write_where_lookup (w : list cond) (d : update_data) (now : Z) (s : store) (i : nat) :
  write_where w d now s !! i =
  (fun u => if matches w u then apply_update d now u else u) <$> s !! i.
Proof. unfold write_where. apply list_lookup_fmap. Qed.

Lemma elem_of_write_where (w : list cond) (d : update_data) (now : Z) (s : store) (u' : User) :
  u' ∈ write_where w d now s <->
  exists u, u' = (if matches w u then apply_update d now u else u) /\ u ∈ s.
Proof. unfold write_where. apply list_elem_of_fmap. Qed.

(** ** Running programs *)

(** Every handler makes at most one write. *)
Lemma serve_transition (e : env) (r : request) (s : store) :
  transition e s r (serve e r s).
Proof.
  destruct r; cbn [serve]; run_cases; try apply t_none.
  all: written; try apply t_none.
  all: first
    [ eapply t_create; [by passed_check | eassumption | reflexivity | assumption]
    | eapply t_issue;
        [constructor | by passed_check | eassumption | reflexivity | assumption]
    | eapply t_claim;
        [by destruct (truthy _) | eassumption | eassumption | reflexivity
        | assumption]
    | by apply t_sweep ].
Qed.

(** ** Reading [where] objects *)

Lemma matches_id (i : string) (u : User) :
  matches [IdIs i] u = true <-> id u = i.
Proof.
  unfold matches. cbn [forallb holds]. rewrite andb_true_r. apply String.eqb_eq.
Qed.

Lemma matches_email (a : string) (u : User) :
  matches [EmailIs a] u = true <-> email u = a.
Proof.
  unfold matches. cbn [forallb holds]. rewrite andb_true_r. apply String.eqb_eq.
Qed.

Lemma matches_live (t : string) (now : Z) (u : User) :
  matches [TokenIs t; UsedIs false; ExpiresGt now] u = true <->
  magicLinkToken u = Some t /\ magicLinkUsed u = false /\
  exists x, magicLinkExpires u = Some x /\ now < x.
Proof.
  unfold matches. cbn [forallb holds]. rewrite andb_true_r, !andb_true_iff.
  destruct (magicLinkToken u) as [t'|], (magicLinkUsed u),
    (magicLinkExpires u) as [x|]; cbn [Bool.eqb];
    rewrite ?String.eqb_eq, ?Z.ltb_lt; split;
    try (intros (? & ? & ?); done);
    try (intros (? & ? & y & ? & ?); done).
  - intros (-> & _ & Hx). eauto.
  - intros (Ht & _ & y & Hy & Hlt). by simplify_eq.
Qed.

Lemma matches_lookup (w : cond) (now : Z) (u : User) :
  matches [w; UsedIs false; ExpiresGt now] u = true <->
  holds u w = true /\ magicLinkUsed u = false /\
  exists x, magicLinkExpires u = Some x /\ now < x.
Proof.
  unfold matches. cbn [forallb holds]. rewrite andb_true_r, !andb_true_iff.
  destruct (magicLinkUsed u), (magicLinkExpires u) as [x|]; cbn [Bool.eqb];
    rewrite ?Z.ltb_lt; split;
    try (intros (? & ? & ?); done);
    try (intros (? & ? & y & ? & ?); done).
  - intros (? & _ & ?). eauto.
  - intros (? & _ & y & Hy & Hlt). by simplify_eq.
Qed.


Lemma matches_sweep (now : Z) (u : User) :
  matches [ExpiresLt now; TokenNotNull] u = true <->
  (exists x, magicLinkExpires u = Some x /\ x < now) /\
  (exists t, magicLinkToken u = Some t).
Proof.
  unfold matches. cbn [forallb holds]. rewrite andb_true_r, andb_true_iff.
  destruct (magicLinkToken u) as [t'|], (magicLinkExpires u) as [x|];
    rewrite ?Z.ltb_lt; split;
    try (intros [? ?]; done);
    try (intros [(y & ? & ?) (t & ?)]; done).
  - intros [Hx _]. eauto.
  - intros [(y & Hy & Hlt) _]. by simplify_eq.
Qed.

(** ** What a write does to the tokens in the table *)

Lemma tokens_write_where (w : list cond) (d : update_data) (now : Z) (s : store) (x : string) :
  x ∈ tokens (write_where w d now s) ->
  x ∈ tokens s \/ set_magicLinkToken d = Some (Some x).
Proof.
  rewrite !elem_of_tokens. intros (u' & Hu' & Hx).
  apply elem_of_write_where in Hu' as (u & -> & Hu).
  destruct (matches w u); [| by eauto].
  cbn [apply_update magicLinkToken] in Hx.
  destruct (set_magicLinkToken d) as [o|]; simpl in Hx; [| by eauto].
  right. by rewrite Hx.
Qed.

Lemma tokens_app (s1 s2 : store) : tokens (s1 ++ s2) = tokens s1 ++ tokens s2.
Proof. unfold tokens. apply omap_app. Qed.

Lemma claimed_token_gone (t : string) (now now' : Z) (u : User) (s : store) :
  NoDup (tokens s) ->
  findFirst [TokenIs t; UsedIs false; ExpiresGt now] s = Some u ->
  t ∉ tokens (write_where [IdIs (id u)] claim_data now' s).
Proof.
  intros Hnd [Hu [Ht _]%matches_live]%findFirst_Some.
  rewrite elem_of_tokens. intros (v' & Hv' & Hx).
  apply elem_of_write_where in Hv' as (v & -> & Hv).
  destruct (matches [IdIs (id u)] v) eqn:Hm; [done |].
  assert (v = u) as -> by eauto using unique_token.
  assert (matches [IdIs (id u)] u = true) by by apply matches_id.
  congruence.
Qed.

Lemma transition_tokens (e : env) (s s' : store) (r : request) (x : string) :
  transition e s r s' -> x ∈ tokens s' -> x ∈ tokens s \/ draws e r x.
Proof.
  destruct 1; subst; [by left | ..].
  - rewrite tokens_app. intros [?|Hx]%elem_of_app; [by left | right].
    cbn in Hx. by apply list_elem_of_singleton in Hx.
  - intros [?|Hx]%tokens_write_where; [by left | right].
    injection Hx as Hx. by destruct H.
  - intros [?|Hx]%tokens_write_where; [by left | discriminate].
  - intros [?|Hx]%tokens_write_where; [by left | discriminate].
Qed.

Lemma draws_drawn (e : env) (r : request) (x : string) :
  draws e r x -> x = drawn e.
Proof. by destruct r. Qed.

Lemma transition_constraints (e : env) (s s' : store) (r : request) :
  transition e s r s' -> constraints_ok s = true -> constraints_ok s' = true.
Proof. by destruct 1. Qed.

Lemma transition_emails (e : env) (s s' : store) (r : request) (a : string) :
  transition e s r s' -> a ∈ email <$> s' ->
  a ∈ email <$> s \/ includes a "@" = true.
Proof.
  destruct 1; subst; rewrite ?write_where_emails; auto.
  rewrite fmap_app. intros [?|Hx]%elem_of_app; [by left | right].
  cbn in Hx. apply list_elem_of_singleton in Hx. by subst a.
Qed.

(** ** Reachable tables are well formed *)

Lemma well_formed_spec (s : store) :
  well_formed s = true <->
  constraints_ok s = true /\
  (forall a, a ∈ email <$> s -> includes a "@" = true) /\
  (forall t, t ∈ tokens s -> String.length t = 64%nat).
Proof.
  unfold well_formed. rewrite !andb_true_iff, !forallb_forall.
  assert (He : (forall u, In u s -> includes (email u) "@" = true) <->
               (forall a, a ∈ email <$> s -> includes a "@" = true)).
  { split.
    - intros H a (u & -> & Hu)%list_elem_of_fmap. by apply H, list_elem_of_In.
    - intros H u Hu%list_elem_of_In. apply H. by apply list_elem_of_fmap_2. }
  assert (Ht : (forall t, In t (tokens s) -> Nat.eqb (String.length t) 64 = true) <->
               (forall t, t ∈ tokens s -> String.length t = 64%nat)).
  { split.
    - intros H t Hin%list_elem_of_In. by apply Nat.eqb_eq, H.
    - intros H t Hin%list_elem_of_In. by apply Nat.eqb_eq, H. }
  rewrite He, Ht. tauto.
Qed.

Lemma transition_well_formed (e : env) (s s' : store) (r : request) :
  transition e s r s' -> well_formed s = true -> well_formed s' = true.
Proof.
  rewrite !well_formed_spec. intros Htr (Hc & He & Ht). split; [| split].
  - eauto using transition_constraints.
  - intros a [?|?]%(transition_emails _ _ _ _ _ Htr); auto.
  - intros t [? | ->%draws_drawn]%(transition_tokens _ _ _ _ _ Htr);
      auto using drawn_length.
Qed.

Lemma serve_well_formed (e : env) (r : request) (s : store) :
  well_formed s = true -> well_formed (serve e r s) = true.
Proof. apply transition_well_formed with e r, serve_transition. Qed.

Lemma serve_all_well_formed (rs : list (env * request)) (s : store) :
  well_formed s = true -> well_formed (serve_all rs s) = true.
Proof.
  revert s. induction rs as [|[e r] rs IH]; intros s Hs; cbn [serve_all];
    auto using serve_well_formed.
Qed.

Lemma reachable_well_formed (s : store) : reachable s -> well_formed s = true.
Proof. intros [rs ->]. by apply serve_all_well_formed. Qed.

(** ** Verification *)

Lemma findFirst_live_None (t : string) (now : Z) (s : store) :
  t ∉ tokens s -> findFirst [TokenIs t; UsedIs false; ExpiresGt now] s = None.
Proof.
  intros Ht. destruct (findFirst _ s) as [u|] eqn:Hf; [| done].
  apply findFirst_Some in Hf as [Hu [Htok _]%matches_live].
  destruct Ht. apply elem_of_tokens. eauto.
Qed.

Lemma verify_no_match (e : env) (t : string) (s : store) :
  t <> "" ->
  findFirst [TokenIs t; UsedIs false; ExpiresGt (clock e)] s = None ->
  run e (verify e (JStr t)) s =
    (inr invalid_or_expired, s,
     [Called DateNow;
      Called (FindFirst [TokenIs t; UsedIs false; ExpiresGt (clock e)])]).
Proof.
  intros Ht Hf. destruct t as [|c t]; [done |].
  unfold verify, token_arg, call. cbn [run bind try_catch exec fst snd negb
    truthy String.eqb token_cond]. by rewrite Hf.
Qed.

Lemma verify_success (e : env) (t : string) (s s' : store) (r : response) (tr : list event) :
  run e (verify e (JStr t)) s = (inr r, s', tr) ->
  status r = 200 ->
  t <> "" /\
  exists u,
    findFirst [TokenIs t; UsedIs false; ExpiresGt (clock e)] s = Some u /\
    s' = write_where [IdIs (id u)] claim_data (clock e) s /\
    constraints_ok s' = true.
Proof.
  revert r s' tr. run_cases; intros r s' tr Hrun Hst; simplify_eq;
    try discriminate Hst.
  written. split; [by intros -> |]. by eexists.
Qed.

Lemma not_drawn_later (t : string) (later : list (env * request)) (s : store) :
  Forall (fun er => ~ draws er.1 er.2 t) later ->
  t ∉ tokens s -> t ∉ tokens (serve_all later s).
Proof.
  revert s. induction later as [|[e r] later IH]; intros s Hl Ht; [done |].
  apply Forall_cons in Hl as [Her Hl]. cbn [serve_all]. apply IH; [done |].
  intros [?|?]%(transition_tokens e s _ r); [done.. |].
  apply serve_transition.
Qed.

(** X20. Once [verify] has answered 200 for a token that is a string,
    every later [verify] of that string answers "Invalid or expired
    verification link", whatever requests are served in between, as long
    as none of them draws the same token from the random source again. *)
Theorem verify_at_most_once
    (s : store) (e : env) (t : string) (r : response) (s' : store)
    (tr : list event) :
  constraints_ok s = true ->
  run e (verify e (JStr t)) s = (inr r, s', tr) ->
  status r = 200 ->
  forall (later : list (env * request)) (e' : env),
    Forall (fun er => ~ draws er.1 er.2 t) later ->
    run e' (verify e' (JStr t)) (serve_all later s') =
      (inr invalid_or_expired, serve_all later s',
       [Called DateNow;
        Called (FindFirst [TokenIs t; UsedIs false; ExpiresGt (clock e')])]).
Proof.
  intros Hc Hrun Hst later e' Hl.
  apply verify_success in Hrun as (Ht & u & Hf & -> & _); [| done].
  apply constraints_ok_spec in Hc as (_ & _ & Hnd).
  apply verify_no_match; [done |].
  apply findFirst_live_None, not_drawn_later; [done |].
  by eapply claimed_token_gone.
Qed.

(** ** Looking rows up by a unique column *)

Lemma findFirst_email (s : store) (u : User) :
  NoDup (email <$> s) -> u ∈ s -> findFirst [EmailIs (email u)] s = Some u.
Proof.
  intros Hnd Hu.
  destruct (findFirst_is_Some [EmailIs (email u)] s u) as [v Hv];
    [done | by apply matches_email |].
  rewrite Hv. f_equal.
  apply findFirst_Some in Hv as [Hin Hm%matches_email].
  by apply (unique_by email s).
Qed.

Lemma findFirst_email_None (s : store) (a : string) :
  a ∉ email <$> s -> findFirst [EmailIs a] s = None.
Proof.
  intros Ha. destruct (findFirst _ s) as [u|] eqn:Hf; [| done].
  apply findFirst_Some in Hf as [Hu Hm%matches_email].
  destruct Ha. subst a. by apply list_elem_of_fmap_2.
Qed.

Lemma findFirst_id (s : store) (u : User) :
  NoDup (id <$> s) -> u ∈ s -> findFirst [IdIs (id u)] s = Some u.
Proof.
  intros Hnd Hu.
  destruct (findFirst_is_Some [IdIs (id u)] s u) as [v Hv];
    [done | by apply matches_id |].
  rewrite Hv. f_equal.
  apply findFirst_Some in Hv as [Hin Hm%matches_id].
  by apply (unique_by id s).
Qed.

Lemma findFirst_live (s : store) (u : User) (t : string) (now : Z) :
  NoDup (tokens s) -> u ∈ s -> magicLinkToken u = Some t ->
  findFirst [TokenIs t; UsedIs false; ExpiresGt now] s =
    if matches [TokenIs t; UsedIs false; ExpiresGt now] u then Some u else None.
Proof.
  intros Hnd Hu Ht.
  destruct (findFirst _ s) as [v|] eqn:Hf.
  - apply findFirst_Some in Hf as [Hv Hm]. pose proof Hm as [Htv _]%matches_live.
    assert (v = u) as -> by eauto using unique_token. by rewrite Hm.
  - by rewrite (findFirst_None _ _ _ Hf Hu).
Qed.

(** C4. A token whose row has an expiry at or before the current time is
    answered "Invalid or expired verification link", whether or not it was
    ever consumed, and the table is left as it was. *)
Theorem expired_token_never_verifies
    (s : store) (e : env) (u : User) (t : string) (x : Z) :
  well_formed s = true ->
  u ∈ s -> magicLinkToken u = Some t -> magicLinkExpires u = Some x ->
  x <= clock e ->
  run e (verify e (JStr t)) s =
    (inr invalid_or_expired, s,
     [Called DateNow;
      Called (FindFirst [TokenIs t; UsedIs false; ExpiresGt (clock e)])]).
Proof.
  intros (Hc & _ & Hlen)%well_formed_spec Hu Ht Hx Hle.
  apply constraints_ok_spec in Hc as (_ & _ & Hnd).
  apply verify_no_match.
  - intros ->. specialize (Hlen ""). rewrite elem_of_tokens in Hlen.
    by specialize (Hlen (ex_intro _ u (conj Hu Ht))).
  - rewrite (findFirst_live s u t (clock e) Hnd Hu Ht).
    destruct (matches _ u) eqn:Hm; [| done].
    apply matches_live in Hm as (_ & _ & y & Hy & Hlt). simplify_eq. lia.
Qed.

(** ** Addresses *)

Lemma includes_nonempty (a : string) :
  includes a "@" = true -> negb (truthy (JStr a)) = false.
Proof. destruct a; [discriminate | done]. Qed.

Lemma email_accepted (a : string) :
  includes a "@" = true -> email_rejected (JStr a) = Ret false.
Proof.
  intros Ha. unfold email_rejected. rewrite (includes_nonempty a Ha).
  cbn [js_includes]. by rewrite Ha.
Qed.

(** X21. An address that is absent, null or a string is accepted exactly
    when it is present and contains '@'. The three issuing endpoints
    answer 400 "Valid email is required" to an absent or null address and
    to a string without '@', before any call is made and with the table
    untouched; a string with '@' passes the check and is looked up exactly
    as it was entered. *)
Theorem email_validity :
  (forall (e : env) (s : store) (r : request) (email : jsval),
      addressed email r ->
      email = JUndefined \/ email = JNull \/
        (exists a, email = JStr a /\ ~ has_at a) ->
      reply e r s = Some (inr invalid_input) /\
      serve e r s = s /\ trace e r s = []) /\
  (forall (e : env) (s : store) (r : request) (a : string),
      issuance a r -> has_at a ->
      email_rejected (JStr a) = Ret false /\
      reply e r s <> Some (inr invalid_input) /\
      exists rest, trace e r s = Called (FindUnique [EmailIs a]) :: rest).
Proof.
  split.
  - intros e s r email Hr Hbad.
    assert (Hrej : email_rejected email = Ret true).
    { destruct Hbad as [-> | [-> | (a & -> & Ha)]]; [done.. |].
      unfold email_rejected. destruct (negb (truthy (JStr a))); [done |].
      cbn [js_includes]. destruct (includes a "@") eqn:Hi; [| done].
      by apply includes_at in Hi. }
    destruct Hr; cbn [reply serve trace]; unfold signup, login, resend;
      by rewrite Hrej.
  - intros e s r a Hr Ha%includes_at.
    split; [by apply email_accepted |].
    pose proof (email_accepted a Ha) as Hok.
    destruct Hr; cbn [reply serve trace]; unfold signup, login, resend,
      string_arg, call; rewrite Hok; cbn [bind try_catch run exec].
    all: split;
      [ run_cases; unfold invalid_input, failure; by intros [=]
      | destruct (run e _ s) as [[res s2] tr]; cbn; eauto ].
Qed.

(** An address that is neither falsy nor a string or an array has no
    [includes] to call: the TypeError lands in the [catch] and the answer
    is the endpoint's 500. *)
Lemma email_without_includes (e : env) (s : store) (r : request) (email : jsval) :
  addressed email r ->
  truthy email = true -> js_includes email "@" = None ->
  reply e r s = Some (inr (internal_error r)) /\
  serve e r s = s /\ trace e r s = [].
Proof.
  intros Hr Ht Hi.
  assert (Hthrow : email_rejected email = Throw TypeError).
  { unfold email_rejected. by rewrite Ht, Hi. }
  destruct Hr; cbn [reply serve trace]; unfold signup, login, resend;
    by rewrite Hthrow.
Qed.

Lemma stored_email_accepted (s : store) (u : User) :
  well_formed s = true -> u ∈ s ->
  email_rejected (JStr (email u)) = Ret false /\
  findFirst [EmailIs (email u)] s = Some u.
Proof.
  intros (Hc & He & _)%well_formed_spec Hu.
  apply constraints_ok_spec in Hc as (_ & Hnd & _). split.
  - apply email_accepted, He. by apply list_elem_of_fmap_2.
  - by apply findFirst_email.
Qed.

(** ** Signup and login *)

(** C5. Signing up with the address of a verified account is answered 409
    "Account already exists and verified"; the only call made is the lookup
    of the address, so no token is drawn, nothing is written and no mail is
    sent, and the table is exactly as before. *)
Theorem signup_verified_conflict
    (s : store) (e : env) (u : User) (name : jsval) :
  well_formed s = true ->
  u ∈ s -> verified u = true ->
  run e (signup e (JStr (email u)) name) s =
    (inr (failure 409 "Account already exists and verified"), s,
     [Called (FindUnique [EmailIs (email u)])]).
Proof.
  intros Hwf Hu Hv. destruct (stored_email_accepted s u Hwf Hu) as [Hok Hf].
  unfold signup, string_arg, call. rewrite Hok.
  cbn [bind try_catch run exec]. by rewrite Hf, Hv.
Qed.

(** C6. Asking for a login link for an address without an account and for
    the address of an unverified account is answered alike: 404 "No
    verified account found with this email", after a single lookup and
    with the table untouched. *)
Theorem login_not_found_uniform
    (s : store) (e1 e2 : env) (a1 : string) (u2 : User) :
  well_formed s = true ->
  has_at a1 -> a1 ∉ email <$> s ->
  u2 ∈ s -> verified u2 = false ->
  let not_found := failure 404 "No verified account found with this email" in
  run e1 (login e1 (JStr a1)) s =
    (inr not_found, s, [Called (FindUnique [EmailIs a1])]) /\
  run e2 (login e2 (JStr (email u2))) s =
    (inr not_found, s, [Called (FindUnique [EmailIs (email u2)])]).
Proof.
  intros Hwf Ha1%includes_at Hnew Hu Hv not_found.
  destruct (stored_email_accepted s u2 Hwf Hu) as [Hok Hf]. split.
  - unfold login, string_arg, call. rewrite (email_accepted a1 Ha1).
    cbn [bind try_catch run exec]. by rewrite (findFirst_email_None s a1 Hnew).
  - unfold login, string_arg, call. rewrite Hok.
    cbn [bind try_catch run exec]. by rewrite Hf, Hv.
Qed.

(** ** Writes that clear tokens *)

Lemma tokens_cleared_sublist (w : list cond) (d : update_data) (now : Z) (s : store) :
  set_magicLinkToken d = Some None ->
  tokens (write_where w d now s) `sublist_of` tokens s.
Proof.
  intros Hd. unfold tokens, write_where.
  induction s as [|u s IH]; [constructor |].
  cbn [fmap list_fmap omap list_omap]. destruct (matches w u).
  - cbn [apply_update magicLinkToken]. rewrite Hd. simpl.
    destruct (magicLinkToken u); [by constructor | done].
  - destruct (magicLinkToken u); [by constructor | done].
Qed.

Lemma clearing_keeps_constraints (w : list cond) (d : update_data) (now : Z) (s : store) :
  set_magicLinkToken d = Some None ->
  constraints_ok s = true -> constraints_ok (write_where w d now s) = true.
Proof.
  rewrite !constraints_ok_spec, write_where_ids, write_where_emails.
  intros Hd (Hi & He & Ht). repeat split; [done.. |].
  eauto using sublist_NoDup, tokens_cleared_sublist.
Qed.

Lemma cleanup_run (e : env) (s : store) :
  constraints_ok s = true ->
  serve e Cleanup s =
    write_where [ExpiresLt (clock e); TokenNotNull] cleanup_data (clock e) s.
Proof.
  intros Hc. cbn [serve]. unfold cleanupExpiredTokens, call, await.
  cbn [bind try_catch run exec]. unfold updateMany.
  by rewrite clearing_keeps_constraints.
Qed.

(** C8. The cleanup keeps every row in its place. A row whose expiry is in
    the past and that still stores a token loses the token and the expiry
    and has its used flag reset, while its id, address, name, verified flag
    and creation time stay as they were; every other row is untouched. *)
Theorem cleanup_frame (s : store) (e : env) :
  constraints_ok s = true ->
  List.length (serve e Cleanup s) = List.length s /\
  forall (i : nat) (u : User),
    s !! i = Some u ->
    exists u',
      serve e Cleanup s !! i = Some u' /\
      (past_expiry (clock e) u ->
         magicLinkToken u' = None /\ magicLinkExpires u' = None /\
         magicLinkUsed u' = false /\
         id u' = id u /\ email u' = email u /\ name u' = name u /\
         verified u' = verified u /\ createdAt u' = createdAt u) /\
      (~ past_expiry (clock e) u -> u' = u).
Proof.
  intros Hc. rewrite (cleanup_run e s Hc). split.
  - unfold write_where. apply length_fmap.
  - intros i u Hu. rewrite write_where_lookup, Hu. cbn [fmap option_fmap option_map].
    eexists. split; [done |].
    unfold past_expiry. rewrite <- matches_sweep.
    by destruct (matches _ u).
Qed.

(** ** The verified flag *)

Lemma write_where_row (w : list cond) (d : update_data) (now : Z) (s : store)
    (i : nat) (u : User) :
  s !! i = Some u ->
  write_where w d now s !! i =
    Some (if matches w u then apply_update d now u else u).
Proof. intros Hu. by rewrite write_where_lookup, Hu. Qed.

Lemma transition_row (e : env) (s s' : store) (r : request) (i : nat) (u : User) :
  transition e s r s' -> s !! i = Some u ->
  exists u', s' !! i = Some u' /\ id u' = id u /\ email u' = email u /\
             (verified u = true -> verified u' = true).
Proof.
  destruct 1; subst; intros Hu; [by eauto | ..].
  - exists u. split; [| done]. rewrite lookup_app_l; [done |].
    by eapply lookup_lt_Some.
  - rewrite (write_where_row _ _ _ _ _ _ Hu). eexists. split; [done |].
    by destruct (matches _ u).
  - rewrite (write_where_row _ _ _ _ _ _ Hu). eexists. split; [done |].
    by destruct (matches _ u).
  - rewrite (write_where_row _ _ _ _ _ _ Hu). eexists. split; [done |].
    by destruct (matches _ u).
Qed.



(** ** Issuance *)

Lemma issuance_notified (e : env) (r : request) (addr : string) (s : store) :
  issuance addr r ->
  mails (trace e r s) <> [] ->
  persisted e addr s (serve e r s) /\
  issuance_calls e addr (trace e r s) /\
  includes addr "@" = true /\
  exists resp,
    reply e r s = Some (inr resp) /\
    (smtp_ok e = false -> resp = internal_error r) /\
    (smtp_ok e = true -> status resp = 200).
Proof.
  intros Hr. inversion Hr; subst; cbn [trace serve reply]; run_cases;
    cbn [mails omap list_omap]; try done; intros _.
  all: written.
  all: split;
    [ split; [assumption |];
      first [ left; do 2 eexists; split; [eassumption | reflexivity]
            | right; eexists; split; [eassumption | reflexivity] ]
    | split; [calls_shown |];
      split; [by passed_check |];
      eexists; split; [reflexivity |]; by split ].
Qed.

Lemma issuance_success (e : env) (r : request) (addr : string) (s : store)
    (resp : response) :
  issuance addr r ->
  reply e r s = Some (inr resp) -> status resp = 200 ->
  mails (trace e r s) <> [].
Proof.
  intros Hr. inversion Hr; subst; cbn [trace serve reply]; run_cases;
    cbn [mails omap list_omap]; intros [= <-]; done.
Qed.

Lemma persisted_row (e : env) (addr : string) (s s' : store) :
  persisted e addr s s' ->
  exists u', u' ∈ s' /\ email u' = addr /\ holds_token e u' /\
             verified u' = from_option verified false (findFirst [EmailIs addr] s).
Proof.
  intros [_ [(u & nm & Hf & ->) | (nm & Hf & ->)]]; rewrite Hf.
  - apply findFirst_Some in Hf as [Hu Hm].
    exists (apply_update (issue_data nm (drawn e) (expiry e)) (clock e) u).
    split; [| by apply matches_email in Hm].
    apply elem_of_write_where. exists u. by rewrite Hm.
  - eexists. split; [apply elem_of_app; right; apply list_elem_of_singleton; done |].
    done.
Qed.

Lemma write_where_no_match (w : list cond) (d : update_data) (now : Z) (s : store) :
  (forall u, u ∈ s -> matches w u = false) -> write_where w d now s = s.
Proof.
  intros Hno. unfold write_where. rewrite <- (list_fmap_id s) at 2.
  apply list_fmap_ext. intros i u Hu.
  by rewrite (Hno u) by by eapply list_elem_of_lookup_2.
Qed.

Lemma issue_keeps_tokens_unique (a t : string) (nm : option (option string))
    (x now : Z) (s : store) :
  NoDup (email <$> s) -> NoDup (tokens s) -> t ∉ tokens s ->
  NoDup (tokens (write_where [EmailIs a] (issue_data nm t x) now s)).
Proof.
  induction s as [|u s IH]; [constructor |].
  rewrite fmap_cons, NoDup_cons. intros [Hu He] Hnd Ht.
  change (write_where [EmailIs a] (issue_data nm t x) now (u :: s))
    with ((if matches [EmailIs a] u
           then apply_update (issue_data nm t x) now u else u)
          :: write_where [EmailIs a] (issue_data nm t x) now s).
  assert (Hs : NoDup (tokens s) /\ t ∉ tokens s).
  { unfold tokens in *. cbn [omap list_omap] in Hnd, Ht.
    destruct (magicLinkToken u); [| done].
    apply NoDup_cons in Hnd as [_ ?]. by apply not_elem_of_cons in Ht as [_ ?]. }
  destruct Hs as [Hnds Hts].
  destruct (matches [EmailIs a] u) eqn:Hm.
  - apply matches_email in Hm. rewrite write_where_no_match.
    + unfold tokens. cbn [omap list_omap apply_update magicLinkToken issue_data
                         set_magicLinkToken]. simpl. by apply NoDup_cons.
    + intros v Hv. destruct (matches [EmailIs a] v) eqn:Hmv; [| done].
      apply matches_email in Hmv. destruct Hu. rewrite Hm, <- Hmv.
      by apply list_elem_of_fmap_2.
  - specialize (IH He Hnds Hts). unfold tokens in *. cbn [omap list_omap] in *.
    destruct (magicLinkToken u) as [y|]; [| done].
    apply NoDup_cons. split; [| done].
    intros [Hy | Hy]%tokens_write_where.
    + by apply NoDup_cons in Hnd as [? _].
    + injection Hy as ->. apply Ht. by left.
Qed.

Lemma issue_keeps_constraints (a t : string) (nm : option (option string))
    (x now : Z) (s : store) :
  constraints_ok s = true -> t ∉ tokens s ->
  constraints_ok (write_where [EmailIs a] (issue_data nm t x) now s) = true.
Proof.
  rewrite !constraints_ok_spec, write_where_ids, write_where_emails.
  intros (Hi & He & Ht) Hfresh. repeat split; [done.. |].
  by apply issue_keeps_tokens_unique.
Qed.

Lemma superseded (a t t1 : string) (nm : option (option string)) (x now : Z)
    (s : store) (u : User) :
  NoDup (tokens s) -> u ∈ s -> email u = a -> magicLinkToken u = Some t1 ->
  t <> t1 ->
  t1 ∉ tokens (write_where [EmailIs a] (issue_data nm t x) now s).
Proof.
  intros Hnd Hu Ha Ht1 Hne. rewrite elem_of_tokens. intros (v' & Hv' & Hx).
  apply elem_of_write_where in Hv' as (v & -> & Hv).
  destruct (matches [EmailIs a] v) eqn:Hm.
  - cbn in Hx. congruence.
  - assert (v = u) as -> by eauto using unique_token.
    apply matches_email in Ha. congruence.
Qed.

(** C3. When an account holds a token [t1] and an issuance for its address
    is answered 200 having drawn a different token, the account's row
    holds the new token, unused, with a fresh expiry, and [verify] of [t1]
    answers "Invalid or expired verification link" from then on, whether
    or not [t1] had expired or been used. In any table that meets the
    schema's constraints, at most one token verifies for a given account
    at a given time. *)
Theorem issuance_supersedes
    (s : store) (e : env) (r : request) (u : User) (t1 : string)
    (resp : response) :
  well_formed s = true ->
  u ∈ s -> magicLinkToken u = Some t1 ->
  issuance (email u) r ->
  reply e r s = Some (inr resp) -> status resp = 200 ->
  drawn e <> t1 ->
  (exists u', u' ∈ serve e r s /\ id u' = id u /\ holds_token e u') /\
  (forall e' : env,
      run e' (verify e' (JStr t1)) (serve e r s) =
        (inr invalid_or_expired, serve e r s,
         [Called DateNow;
          Called (FindFirst [TokenIs t1; UsedIs false; ExpiresGt (clock e')])])) /\
  (forall (s0 : store) (now : Z) (t t' : string) (v v' : User),
      constraints_ok s0 = true ->
      findFirst [TokenIs t; UsedIs false; ExpiresGt now] s0 = Some v ->
      findFirst [TokenIs t'; UsedIs false; ExpiresGt now] s0 = Some v' ->
      id v = id v' -> t = t').
Proof.
  intros Hwf Hu Ht1 Hr Hreply Hst Hne.
  pose proof Hwf as (Hc & _ & Hlen)%well_formed_spec.
  pose proof Hc as (_ & Hemails & Hnd)%constraints_ok_spec.
  pose proof (issuance_success e r _ s resp Hr Hreply Hst) as Hsent.
  destruct (issuance_notified e r _ s Hr Hsent) as ([_ Hp] & _).
  rewrite (findFirst_email s u Hemails Hu) in Hp.
  destruct Hp as [(u0 & nm & [= <-] & Hs') | (nm & [=] & _)].
  rewrite Hs'. split; [| split].
  - exists (apply_update (issue_data nm (drawn e) (expiry e)) (clock e) u).
    split; [| done]. apply elem_of_write_where. exists u.
    assert (matches [EmailIs (email u)] u = true) as -> by by apply matches_email.
    done.
  - intros e'. apply verify_no_match.
    + intros ->. specialize (Hlen ""). rewrite elem_of_tokens in Hlen.
      by specialize (Hlen (ex_intro _ u (conj Hu Ht1))).
    + apply findFirst_live_None. by apply (superseded _ _ _ _ _ _ _ u).
  - intros s0 now t t' v v' (Hids & _ & _)%constraints_ok_spec
      [Hv [Ht _]%matches_live]%findFirst_Some
      [Hv' [Ht' _]%matches_live]%findFirst_Some Hid.
    assert (v = v') as -> by by apply (unique_by id s0). congruence.
Qed.

Lemma smtp_irrelevant (b : bool) (e : env) (r : request) (s : store) :
  serve (with_smtp b e) r s = serve e r s /\
  trace (with_smtp b e) r s = trace e r s.
Proof.
  destruct r; cbn [serve trace];
    unfold signup, login, verify, resend, cleanupExpiredTokens,
      email_rejected, string_arg, nullable_string_update,
      nullable_string_field, token_arg, token_cond, new_token,
      new_expiry, sendMagicLinkEmail, jwt_sign, call, await, magicLinkUrl;
    repeat (cbn [run bind try_catch exec fst snd with_smtp clock entropy cuid
                 smtp_ok PORT JWT_SECRET token_filter];
            try case_step);
    done.
Qed.

Lemma name_accepted (name : jsval) (o : option string) :
  negb (truthy name) || name_taken name = true ->
  exists nm, nullable_string_update (js_or name (of_db o)) = Ret nm.
Proof.
  unfold js_or. destruct (truthy name) eqn:Ht; cbn [negb orb].
  - unfold name_taken, nullable_string_update.
    destruct (set_operation _) as [[]|]; try discriminate; eauto.
    destruct name; try discriminate; eauto.
  - destruct o; eauto.
Qed.

Lemma issuance_reaches_notifier (e : env) (r : request) (addr : string)
    (s : store) (u : User) :
  issuance addr r ->
  includes addr "@" = true ->
  findFirst [EmailIs addr] s = Some u ->
  gate r u = true ->
  (forall nm,
      constraints_ok
        (write_where [EmailIs addr] (issue_data nm (drawn e) (expiry e))
           (clock e) s) = true) ->
  mails (trace e r s) <> [].
Proof.
  intros Hr Hinc Hf Hg Hc. pose proof (email_accepted addr Hinc) as Hok.
  unfold drawn, expiry in Hc.
  inversion Hr; subst; cbn [trace gate] in *;
    unfold signup, login, resend, string_arg, new_token, new_expiry,
      await, sendMagicLinkEmail, call;
    rewrite Hok; cbn [bind try_catch run exec]; rewrite Hf.
  - apply andb_true_iff in Hg as [Hv Hn]. apply negb_true_iff in Hv.
    rewrite Hv. destruct (name_accepted _ (Db.name u) Hn) as [nm ->].
    cbn [bind try_catch run exec]. unfold update. rewrite Hf, Hc.
    cbn [bind try_catch run exec]. by destruct (smtp_ok e).
  - rewrite Hg. cbn [negb bind try_catch run exec]. unfold update.
    rewrite Hf, Hc. cbn [bind try_catch run exec]. by destruct (smtp_ok e).
  - apply negb_true_iff in Hg. rewrite Hg. cbn [bind try_catch run exec].
    unfold update. rewrite Hf, Hc. cbn [bind try_catch run exec].
    by destruct (smtp_ok e).
Qed.

Lemma issuance_gate (e : env) (r : request) (addr : string) (s : store) (u' : User) :
  issuance addr r ->
  mails (trace e r s) <> [] ->
  verified u' = from_option verified false (findFirst [EmailIs addr] s) ->
  gate r u' = true.
Proof.
  intros Hr. inversion Hr; subst; cbn [trace gate]; run_cases;
    cbn [mails omap list_omap from_option]; try done; intros _ ->.
  all: rewrite ?Heqb1; unfold js_or in *; cbn [negb andb] in *; try done.
  all: try (by apply negb_false_iff).
  all: try (destruct (truthy name0) eqn:Htr;
            [cbn [negb orb]; unfold name_taken | done]).
  all: repeat match goal with H : set_operation _ = _ |- _ => rewrite H end.
  all: try done.
  all: try apply orb_true_r.
  all: by simplify_eq.
Qed.

(** C9. When an issuance gets as far as the notifier and the notifier
    fails, the endpoint answers its 500 message, and the token and expiry
    are already in the table: the write is the call just before the mail,
    the row of the address holds the drawn token, the table meets the
    schema's constraints and is the very table a working notifier would
    have left behind a 200. Asking again then overwrites the token with
    the newly drawn one. *)
Theorem notifier_failure_after_persist
    (s : store) (e : env) (r : request) (addr : string) :
  issuance addr r ->
  mails (trace e r s) <> [] ->
  smtp_ok e = false ->
  reply e r s = Some (inr (internal_error r)) /\
  issuance_calls e addr (trace e r s) /\
  (exists u', u' ∈ serve e r s /\ email u' = addr /\ holds_token e u') /\
  constraints_ok (serve e r s) = true /\
  (serve (with_smtp true e) r s = serve e r s /\
   trace (with_smtp true e) r s = trace e r s /\
   exists ok, reply (with_smtp true e) r s = Some (inr ok) /\ status ok = 200) /\
  (forall e2 : env,
      drawn e2 ∉ tokens (serve e r s) ->
      mails (trace e2 r (serve e r s)) <> [] /\
      exists u'', u'' ∈ serve e2 r (serve e r s) /\ email u'' = addr /\
                  holds_token e2 u'').
Proof.
  intros Hr Hsent Hfail.
  destruct (issuance_notified e r addr s Hr Hsent)
    as (Hp & Hcalls & Hinc & resp & Hreply & Hresp & _).
  destruct (persisted_row e addr s _ Hp) as (u' & Hu' & Hmail & Htok & Hver).
  pose proof (issuance_gate e r addr s u' Hr Hsent Hver) as Hgate.
  destruct (smtp_irrelevant true e r s) as [Hsame Htrace].
  repeat split; try done.
  - by rewrite Hreply, (Hresp Hfail).
  - by eauto.
  - by destruct Hp.
  - destruct (issuance_notified (with_smtp true e) r addr s Hr)
      as (_ & _ & _ & ok & Hok & _ & Hst); [by rewrite Htrace |].
    exists ok. auto.
  - destruct Hp as [Hc _]. pose proof Hc as (_ & He & _)%constraints_ok_spec.
    subst addr. eapply issuance_reaches_notifier; eauto using findFirst_email.
    intros nm. by apply issue_keeps_constraints.
  - destruct Hp as [Hc _]. pose proof Hc as (_ & He & _)%constraints_ok_spec.
    assert (Hagain : mails (trace e2 r (serve e r s)) <> []).
    { subst addr. eapply issuance_reaches_notifier; eauto using findFirst_email.
      intros nm. by apply issue_keeps_constraints. }
    destruct (issuance_notified e2 r addr _ Hr Hagain) as (Hp2 & _).
    destruct (persisted_row e2 addr _ _ Hp2) as (u2 & ? & ? & ? & _). eauto.
Qed.

(** ** Requests in flight together *)

(** A request that is alone in flight goes through the calls of its
    sequential run. *)
Lemma interleave_alone (e : env) (p : prog response) (s : store) :
  interleave (replicate (List.length (run e p s).2) 0%nat)
    [ {| thread_env := e; thread_prog := p |} ] s =
  ([ {| thread_env := e; thread_prog := finished (run e p s).1.1 |} ],
   (run e p s).1.2).
Proof.
  revert s. induction p as [a|x|T o k IH]; intros s; [done.. |].
  cbn [run]. destruct (exec e o s) as [r s1] eqn:He.
  specialize (IH r s1). destruct (run e (k r) s1) as [[res s2] tr].
  cbn [fst snd List.length replicate interleave] in *.
  change ([ {| thread_env := e; thread_prog := Vis o k |} ] !! 0%nat)
    with (Some {| thread_env := e; thread_prog := Vis o k |}).
  cbn [step thread_prog thread_env]. by rewrite He.
Qed.

Lemma findFirst_id_write (w : list cond) (d : update_data) (now : Z)
    (s : store) (u : User) :
  NoDup (id <$> s) -> u ∈ s ->
  findFirst [IdIs (id u)] (write_where w d now s) =
    Some (if matches w u then apply_update d now u else u).
Proof.
  intros Hnd Hu.
  set (u' := if matches w u then apply_update d now u else u).
  assert (Hid : id u' = id u) by (unfold u'; by destruct (matches w u)).
  rewrite <- Hid. apply findFirst_id.
  - by rewrite write_where_ids.
  - apply elem_of_write_where. by exists u.
Qed.

(** Whatever the table, two [verify] requests for a live token are both
    answered 200 when both look the token up before either claims it. *)
Lemma overlapped_verify (s : store) (e1 e2 : env) (t : string) (u : User) :
  constraints_ok s = true ->
  t <> "" ->
  findFirst [TokenIs t; UsedIs false; ExpiresGt (clock e1)] s = Some u ->
  findFirst [TokenIs t; UsedIs false; ExpiresGt (clock e2)] s = Some u ->
  JWT_SECRET e1 <> None -> JWT_SECRET e1 <> Some "" ->
  JWT_SECRET e2 <> None -> JWT_SECRET e2 <> Some "" ->
  (fun th => status <$> answer th) <$>
    (interleave [0; 0; 1; 1; 0; 0; 1; 1]%nat
       [ {| thread_env := e1; thread_prog := verify e1 (JStr t) |};
         {| thread_env := e2; thread_prog := verify e2 (JStr t) |} ] s).1
  = [Some 200; Some 200].
Proof.
  intros Hc Ht Hf1 Hf2 Hk1 Hk1' Hk2 Hk2'.
  pose proof Hc as (Hids & _ & _)%constraints_ok_spec.
  pose proof Hf1 as [Hu _]%findFirst_Some.
  destruct t as [|c t]; [done |].
  destruct (JWT_SECRET e1) as [[|c1 k1]|] eqn:Hs1; [done | | done].
  destruct (JWT_SECRET e2) as [[|c2 k2]|] eqn:Hs2; [done | | done].
  unfold verify, token_arg, jwt_sign, call, await. rewrite Hs1, Hs2.
  cbn [interleave lookup list_lookup step thread_prog thread_env bind try_catch
       exec insert list_insert fst snd negb truthy String.eqb token_cond].
  rewrite Hf1, Hf2.
  cbn [interleave lookup list_lookup step thread_prog thread_env bind try_catch
       exec insert list_insert fst snd].
  unfold update at 1. rewrite (findFirst_id s u Hids Hu).
  rewrite (clearing_keeps_constraints _ claim_data _ s eq_refl Hc).
  cbn [interleave lookup list_lookup step thread_prog thread_env bind try_catch
       exec insert list_insert fst snd].
  unfold update at 1. rewrite (findFirst_id_write _ _ _ s u Hids Hu).
  rewrite clearing_keeps_constraints;
    [| done | by apply clearing_keeps_constraints].
  reflexivity.
Qed.

(** C2. Two [verify] requests for the same issued token, in flight
    together so that both look the token up before either claims it, are
    both answered 200 with a session cookie; served one after the other,
    the second is answered "Invalid or expired verification link". The
    lookup and the claim are two calls, and the claim does not look at the
    token again. *)
Theorem concurrent_verify_both_succeed :
  well_formed Scenario.issued = true /\
  (fun t => status <$> answer t) <$>
    (interleave Scenario.overlapped Scenario.two_clicks Scenario.issued).1
  = [Some 200; Some 200] /\
  (fun t => status <$> answer t) <$>
    (interleave Scenario.in_turn Scenario.two_clicks Scenario.issued).1
  = [Some 200; Some 400].
Proof. by vm_compute. Qed.

(** ** The properties on a run of the server *)

Import Scenario.

(** C1. A [token] parameter that arrives as a filter object verifies more
    than once. With the links of two accounts live in the table,
    [GET /api/auth/verify?token[not]=x] is answered 200 with a session
    cookie, and the same request, served again, is answered 200 with a
    session cookie once more: the first claims the row of Alice, the
    second the row of Bea, and the request named neither link. *)
Theorem verify_filter_succeeds_twice :
  two_live = [alice_issued; bea_issued] /\
  well_formed two_live = true /\
  reply at_click (Verify any_but_x) two_live =
    Some (inr (More.welcome at_click alice_issued)) /\
  reply at_again (Verify any_but_x) (serve at_click (Verify any_but_x) two_live) =
    Some (inr (More.welcome at_again bea_issued)) /\
  status (More.welcome at_click alice_issued) = 200 /\
  status (More.welcome at_again bea_issued) = 200.
Proof. repeat split; vm_compute; reflexivity. Qed.

(** C10. An [email] member that is present and holds no '@' is not always
    answered 400: for a number, [email.includes] is not a function, the
    TypeError lands in the [catch], and signup, login and resend answer
    their 500. *)
Theorem email_number_answers_500 :
  email_rejected (JNum 7) = Throw TypeError /\
  reply at_again (Signup (JNum 7) JUndefined) issued =
    Some (inr (failure 500 "Failed to create account. Please try again.")) /\
  reply at_again (Login (JNum 7)) issued =
    Some (inr (failure 500 "Failed to send login link. Please try again.")) /\
  reply at_again (Resend (JNum 7)) issued =
    Some (inr (failure 500 "Failed to send verification link. Please try again.")) /\
  serve at_again (Login (JNum 7)) issued = issued /\
  trace at_again (Login (JNum 7)) issued = [].
Proof. repeat split; vm_compute; reflexivity. Qed.

Lemma verify_at_most_once_witness :
  constraints_ok issued = true /\
  run too_late (verify too_late (JStr T1))
      (serve_all [(at_again, Login alice); (at_retry, Cleanup)] claimed) =
    (inr invalid_or_expired,
     serve_all [(at_again, Login alice); (at_retry, Cleanup)] claimed,
     [Called DateNow;
      Called (FindFirst [TokenIs T1; UsedIs false; ExpiresGt (clock too_late)])]).
Proof.
  split; [reflexivity |].
  eapply (verify_at_most_once issued at_click T1);
    [reflexivity | reflexivity | reflexivity |].
  repeat (apply Forall_cons; split); [| | by apply Forall_nil];
    vm_compute; [discriminate | tauto].
Defined.

Lemma issuance_supersedes_witness :
  well_formed issued = true /\
  forall e' : env,
    run e' (verify e' (JStr T1)) (serve at_again (Resend alice) issued) =
      (inr invalid_or_expired, serve at_again (Resend alice) issued,
       [Called DateNow;
        Called (FindFirst [TokenIs T1; UsedIs false; ExpiresGt (clock e')])]).
Proof.
  split; [reflexivity |].
  edestruct (issuance_supersedes issued at_again (Resend alice) alice_issued T1)
    as (_ & Hold & _);
    [ reflexivity | vm_compute; left | reflexivity | exact (addressed_resend _)
    | reflexivity | reflexivity | vm_compute; discriminate | exact Hold ].
Defined.

Lemma expired_token_never_verifies_witness :
  well_formed issued = true /\
  901000 <= clock too_late /\
  run too_late (verify too_late (JStr T1)) issued =
    (inr invalid_or_expired, issued,
     [Called DateNow;
      Called (FindFirst [TokenIs T1; UsedIs false; ExpiresGt (clock too_late)])]).
Proof.
  split; [reflexivity |]. split; [vm_compute; discriminate |].
  apply (expired_token_never_verifies issued too_late alice_issued T1 901000);
    [ reflexivity | vm_compute; left | reflexivity | reflexivity
    | vm_compute; discriminate ].
Defined.

Lemma signup_verified_conflict_witness :
  well_formed claimed = true /\
  run at_again (signup at_again alice (JStr "B")) claimed =
    (inr (failure 409 "Account already exists and verified"), claimed,
     [Called (FindUnique [EmailIs "a@x.com"])]).
Proof.
  split; [reflexivity |].
  apply (signup_verified_conflict claimed at_again alice_verified (JStr "B"));
    [ reflexivity | vm_compute; left | reflexivity ].
Defined.

Lemma login_not_found_uniform_witness :
  well_formed issued = true /\
  run at_again (login at_again (JStr "b@x.com")) issued =
    (inr (failure 404 "No verified account found with this email"), issued,
     [Called (FindUnique [EmailIs "b@x.com"])]) /\
  run at_retry (login at_retry alice) issued =
    (inr (failure 404 "No verified account found with this email"), issued,
     [Called (FindUnique [EmailIs "a@x.com"])]).
Proof.
  split; [reflexivity |].
  apply (login_not_found_uniform issued at_again at_retry "b@x.com" alice_issued);
    [ reflexivity | by exists "b", "x.com" | vm_compute
    | vm_compute; left | reflexivity ].
  intros [H | H]%elem_of_cons; [discriminate H | by apply elem_of_nil in H].
Defined.


Lemma cleanup_frame_witness :
  constraints_ok issued = true /\
  exists u', serve too_late Cleanup issued !! 0%nat = Some u' /\
             magicLinkToken u' = None /\ magicLinkExpires u' = None /\
             magicLinkUsed u' = false /\ verified u' = verified alice_issued.
Proof.
  split; [reflexivity |].
  destruct (cleanup_frame issued too_late) as [_ Hrows]; [reflexivity |].
  destruct (Hrows 0%nat alice_issued) as (u' & Hu' & Hpast & _); [reflexivity |].
  exists u'. split; [exact Hu' |].
  destruct Hpast as (? & ? & ? & _ & _ & _ & ? & _); [| by auto].
  split; [exists 901000; split; [reflexivity | vm_compute; reflexivity]
         | exists T1; reflexivity].
Defined.

Lemma notifier_failure_after_persist_witness :
  smtp_ok at_outage = false /\
  reply at_outage (Signup alice (JStr "A")) [] =
    Some (inr (failure 500 "Failed to create account. Please try again.")) /\
  issuance_calls at_outage "a@x.com" (trace at_outage (Signup alice (JStr "A")) []) /\
  (exists u', u' ∈ serve at_outage (Signup alice (JStr "A")) [] /\
              email u' = "a@x.com" /\ holds_token at_outage u').
Proof.
  split; [reflexivity |].
  destruct (notifier_failure_after_persist [] at_outage (Signup alice (JStr "A"))
              "a@x.com") as (Hreply & Hcalls & Hrow & _);
    [ exact (addressed_signup _ _) | vm_compute; discriminate | reflexivity |].
  exact (conj Hreply (conj Hcalls Hrow)).
Defined.

Lemma email_validity_witness :
  (reply at_again (Login (JStr "nobody")) issued = Some (inr invalid_input) /\
   serve at_again (Login (JStr "nobody")) issued = issued /\
   trace at_again (Login (JStr "nobody")) issued = []) /\
  (email_rejected (JStr " A@b ") = Ret false /\
   reply at_again (Resend (JStr " A@b ")) issued <> Some (inr invalid_input) /\
   exists rest, trace at_again (Resend (JStr " A@b ")) issued =
                  Called (FindUnique [EmailIs " A@b "]) :: rest).
Proof.
  destruct email_validity as [Hbad Hgood]. split.
  - apply (Hbad at_again issued (Login (JStr "nobody")) (JStr "nobody"));
      [exact (addressed_login _) |].
    right. right. exists "nobody". split; [reflexivity |].
    intros Hat%includes_at. discriminate Hat.
  - apply (Hgood at_again issued (Resend (JStr " A@b ")) " A@b ");
      [exact (addressed_resend _) | by exists " A", "b "].
Defined.

(** ** Verification, when it finds the token *)

Import Session More.

Lemma verify_claims (e : env) (t : string) (s : store) (u : User) :
  constraints_ok s = true -> u ∈ s ->
  matches (live t (clock e)) u = true -> t <> "" ->
  findFirst (live t (clock e)) s = Some u /\
  update [IdIs (id u)] claim_data (clock e) s =
    (inr (claimed_row (clock e) u),
     write_where [IdIs (id u)] claim_data (clock e) s).
Proof.
  intros Hc Hu Hm Ht.
  pose proof Hc as (Hids & _ & Hnd)%constraints_ok_spec.
  pose proof Hm as (Htok & _)%matches_live. split.
  - unfold live in *. by rewrite (findFirst_live s u t _ Hnd Hu Htok), Hm.
  - unfold update. rewrite (findFirst_id s u Hids Hu).
    by rewrite (clearing_keeps_constraints _ claim_data _ s eq_refl Hc).
Qed.

Lemma verify_hit (e : env) (t : string) (s : store) (u : User) :
  constraints_ok s = true -> u ∈ s ->
  matches (live t (clock e)) u = true -> t <> "" -> has_secret e ->
  run e (verify e (JStr t)) s =
    (inr (welcome e u), write_where [IdIs (id u)] claim_data (clock e) s,
     claim_calls e t u ++ [Called DateNow]).
Proof.
  intros Hc Hu Hm Ht (c & k & Hk).
  destruct (verify_claims e t s u Hc Hu Hm Ht) as [Hf Hup].
  destruct t as [|a t]; [done |].
  unfold verify, token_arg, jwt_sign, call, await. rewrite Hk.
  cbn [run bind try_catch exec fst snd negb truthy String.eqb token_cond].
  unfold live in Hf. rewrite Hf.
  cbn [run bind try_catch exec fst snd]. rewrite Hup.
  cbn [run bind try_catch exec fst snd]. reflexivity.
Qed.

Lemma verify_hit_no_secret (e : env) (t : string) (s : store) (u : User) :
  constraints_ok s = true -> u ∈ s ->
  matches (live t (clock e)) u = true -> t <> "" ->
  JWT_SECRET e = None \/ JWT_SECRET e = Some "" ->
  run e (verify e (JStr t)) s =
    (inr (internal_error (Verify (JStr t))),
     write_where [IdIs (id u)] claim_data (clock e) s, claim_calls e t u).
Proof.
  intros Hc Hu Hm Ht Hk.
  destruct (verify_claims e t s u Hc Hu Hm Ht) as [Hf Hup].
  destruct t as [|a t]; [done |].
  unfold verify, token_arg, jwt_sign, call, await.
  cbn [run bind try_catch exec fst snd negb truthy String.eqb token_cond].
  unfold live in Hf. rewrite Hf.
  cbn [run bind try_catch exec fst snd]. rewrite Hup.
  by destruct Hk as [-> | ->].
Qed.

Lemma claimed_row_in (now : Z) (s : store) (u : User) :
  u ∈ s -> claimed_row now u ∈ write_where [IdIs (id u)] claim_data now s.
Proof.
  intros Hu. apply elem_of_write_where. exists u. split; [| done].
  assert (matches [IdIs (id u)] u = true) as -> by by apply matches_id.
  done.
Qed.

Lemma drawn_nonempty (e : env) : drawn e <> "".
Proof. intros H. pose proof (drawn_length e) as Hl. by rewrite H in Hl. Qed.

(** X1. The magic link works once issued: after signup, login or resend
    has answered 200 for an address, a [verify] of the drawn token served
    before the stored expiry, with the signing secret set, answers 200
    with the profile of that address's account and a seven-day
    [auth_token] cookie for its id; the row ends up verified, marked used,
    with token and expiry cleared. *)
Theorem magic_link_round_trip
    (s : store) (e e' : env) (r : request) (addr : string) (resp : response) :
  issuance addr r ->
  reply e r s = Some (inr resp) -> status resp = 200 ->
  clock e' < expiry e -> has_secret e' ->
  exists u,
    u ∈ serve e r s /\ email u = addr /\
    run e' (verify e' (JStr (drawn e))) (serve e r s) =
      (inr (welcome e' u),
       write_where [IdIs (id u)] claim_data (clock e') (serve e r s),
       claim_calls e' (drawn e) u ++ [Called DateNow]) /\
    exists v,
      v ∈ serve e' (Verify (JStr (drawn e))) (serve e r s) /\
      id v = id u /\ email v = addr /\ name v = name u /\
      verified v = true /\ magicLinkUsed v = true /\
      magicLinkToken v = None /\ magicLinkExpires v = None.
Proof.
  intros Hr Hreply Hst Hlt Hk.
  pose proof (issuance_success e r addr s resp Hr Hreply Hst) as Hsent.
  destruct (issuance_notified e r addr s Hr Hsent) as (Hp & _).
  destruct (persisted_row e addr s _ Hp) as (u & Hu & Hmail & (Ht & Hx & Hused) & _).
  destruct Hp as [Hc _].
  assert (Hm : matches (live (drawn e) (clock e')) u = true).
  { apply matches_live. repeat split; [done.. |]. eauto. }
  pose proof (verify_hit e' (drawn e) _ u Hc Hu Hm (drawn_nonempty e) Hk) as Hrun.
  exists u. repeat split; [done.. |].
  exists (claimed_row (clock e') u). cbn [serve]. rewrite Hrun. cbn [fst snd].
  split; [by apply claimed_row_in | done].
Qed.

Lemma magic_link_round_trip_witness :
  clock at_click < expiry at_signup /\
  exists u,
    u ∈ issued /\ email u = "a@x.com" /\
    run at_click (verify at_click (JStr T1)) issued =
      (inr (welcome at_click u),
       write_where [IdIs (id u)] claim_data (clock at_click) issued,
       claim_calls at_click T1 u ++ [Called DateNow]) /\
    exists v,
      v ∈ claimed /\ id v = id u /\ email v = "a@x.com" /\ name v = name u /\
      verified v = true /\ magicLinkUsed v = true /\
      magicLinkToken v = None /\ magicLinkExpires v = None.
Proof.
  split; [reflexivity |].
  eapply (magic_link_round_trip [] at_signup at_click (Signup alice (JStr "A")));
    [ exact (addressed_signup _ _) | reflexivity | reflexivity | reflexivity
    | by exists "s"%char, "ecret" ].
Defined.

(** X2. A [verify] whose signing secret is missing burns the link: when
    the token matches a live row the answer is 500 "Verification failed.
    Please try again." with no cookie, yet the claim has been written, the
    row is verified and its token cleared, and the same token is answered
    "Invalid or expired verification link" ever after. *)
Theorem verify_without_secret
    (s : store) (e : env) (t : string) (u : User) :
  constraints_ok s = true -> u ∈ s ->
  matches (live t (clock e)) u = true -> t <> "" ->
  JWT_SECRET e = None \/ JWT_SECRET e = Some "" ->
  run e (verify e (JStr t)) s =
    (inr (failure 500 "Verification failed. Please try again."),
     write_where [IdIs (id u)] claim_data (clock e) s, claim_calls e t u) /\
  claimed_row (clock e) u ∈ serve e (Verify (JStr t)) s /\
  verified (claimed_row (clock e) u) = true /\
  forall e' : env,
    reply e' (Verify (JStr t)) (serve e (Verify (JStr t)) s) =
      Some (inr invalid_or_expired).
Proof.
  intros Hc Hu Hm Ht Hk.
  pose proof (verify_hit_no_secret e t s u Hc Hu Hm Ht Hk) as Hrun.
  pose proof Hc as (_ & _ & Hnd)%constraints_ok_spec.
  destruct (verify_claims e t s u Hc Hu Hm Ht) as [Hf _].
  cbn [serve reply]. rewrite Hrun. cbn [fst snd].
  repeat split; [by apply claimed_row_in |].
  intros e'. rewrite verify_no_match; [done.. |].
  apply findFirst_live_None. by eapply claimed_token_gone.
Qed.

Lemma verify_without_secret_witness :
  constraints_ok issued = true /\
  run no_secret (verify no_secret (JStr T1)) issued =
    (inr (failure 500 "Verification failed. Please try again."),
     write_where [IdIs "cuid-1"] claim_data 60000 issued,
     claim_calls no_secret T1 alice_issued) /\
  reply at_again (Verify (JStr T1)) (serve no_secret (Verify (JStr T1)) issued) =
    Some (inr invalid_or_expired).
Proof.
  split; [reflexivity |].
  destruct (verify_without_secret issued no_secret T1 alice_issued)
    as (Hrun & _ & _ & Hagain);
    [ reflexivity | vm_compute; left | reflexivity | vm_compute; discriminate
    | by left | ].
  split; [exact Hrun | exact (Hagain at_again)].
Defined.



(** X4. No endpoint but [verify] sets the session cookie, and [verify]
    sets it only in a 200 for the row its lookup found: the cookie is
    [auth_token], http-only, it names that row's id and address, and its
    max-age is the seven days between the token's [iat] and [exp]. *)
Theorem cookie_only_from_verify
    (e : env) (r : request) (s : store) (resp : response) (c : cookie) :
  reply e r s = Some (inr resp) -> set_cookie resp = Some c ->
  exists token w u,
    r = Verify token /\ token_cond e token = Some w /\
    findFirst [w; UsedIs false; ExpiresGt (clock e)] s = Some u /\
    status resp = 200 /\
    cookie_name c = "auth_token" /\ httpOnly c = true /\
    userId (cookie_value c) = id u /\ jwt_email (cookie_value c) = email u /\
    exp (cookie_value c) - iat (cookie_value c) = 7 * 24 * 60 * 60 /\
    maxAge c = 1000 * (exp (cookie_value c) - iat (cookie_value c)).
Proof.
  destruct r; cbn [reply]; try done; run_cases; intros [= <-]; try done.
  all: intros [= <-]; do 3 eexists; split; [done |]; split; [done |];
    split; [done |]; cbn; repeat split; lia.
Qed.

Lemma cookie_only_from_verify_witness :
  exists token w u,
    Verify (JStr T1) = Verify token /\
    token_cond at_click token = Some w /\
    findFirst [w; UsedIs false; ExpiresGt (clock at_click)] issued = Some u /\
    status (welcome at_click alice_issued) = 200.
Proof.
  destruct (cookie_only_from_verify at_click (Verify (JStr T1)) issued
              (welcome at_click alice_issued)
              {| cookie_name := "auth_token";
                 cookie_value := {| userId := "cuid-1"; jwt_email := "a@x.com";
                                    jwt_verified := true; iat := 60;
                                    exp := 604860 |};
                 httpOnly := true; secure := false; sameSite := "lax";
                 maxAge := 604800000 |})
    as (token & w & u & Hr & Hw & Hf & Hst & _); [reflexivity | reflexivity |].
  exists token, w, u. auto.
Defined.

(** ** Issuance, row by row *)

Lemma issuance_effect (e : env) (r : request) (email : jsval) (s : store) :
  addressed email r ->
  serve e r s = s \/
  (exists addr u nm,
      email = JStr addr /\ findFirst [EmailIs addr] s = Some u /\
      serve e r s =
        write_where [EmailIs addr] (issue_data nm (drawn e) (expiry e))
          (clock e) s /\
      default (name u) nm = stored_name r u) \/
  (exists addr name,
      r = Signup (JStr addr) name /\ findFirst [EmailIs addr] s = None /\
      serve e r s = s ++ [created_row e addr name]).
Proof.
  intros Hr. destruct Hr; cbn [serve]; run_cases; try (by left).
  all: written; try (by left).
  all: first
    [ right; right; do 2 eexists; split; [reflexivity |]; split; [eassumption |];
      reflexivity
    | right; left; do 3 eexists; split; [reflexivity |]; split; [eassumption |];
      split; [reflexivity |] ].
  all: cbn [stored_name default from_option issue_data set_name]; try done.
  all: unfold js_or in *; repeat case_match; simplify_eq; try done.
  all: destruct (name u); cbn [of_db] in *; by simplify_eq.
Qed.

(** X5. An issuance changes at most the row of the address it was asked
    for. Every row keeps its place, id, address, verified flag and
    creation time, and is either untouched or is the row of that address,
    now holding the drawn token; its name changes only when signup was
    given a non-empty string or the update operation [{ set: value }]. *)
Theorem issuance_frame
    (e : env) (r : request) (email : jsval) (s : store) (i : nat) (u : User) :
  constraints_ok s = true ->
  addressed email r -> s !! i = Some u ->
  exists u',
    serve e r s !! i = Some u' /\
    id u' = id u /\ Db.email u' = Db.email u /\
    verified u' = verified u /\ createdAt u' = createdAt u /\
    (u' = u \/
     (email = JStr (Db.email u) /\ holds_token e u' /\
      name u' = stored_name r u)).
Proof.
  intros (_ & Hemails & _)%constraints_ok_spec Hr Hu.
  destruct (issuance_effect e r email s Hr)
    as [-> | [(addr & u0 & nm & -> & Hf & -> & Hnm) | (addr & nm & -> & _ & ->)]].
  - exists u. by auto 10.
  - rewrite (write_where_row _ _ _ _ _ _ Hu).
    destruct (matches [EmailIs addr] u) eqn:Hm; [| exists u; by auto 10].
    apply matches_email in Hm. apply findFirst_Some in Hf as [Hu0 Hm0%matches_email].
    assert (u = u0) as ->.
    { eapply (unique_by Db.email s); eauto using list_elem_of_lookup_2.
      congruence. }
    eexists. split; [done |]. repeat split; [].
    right. subst addr. repeat split. cbn. exact Hnm.
  - exists u. rewrite lookup_app_l by by eapply lookup_lt_Some. by auto 10.
Qed.

Lemma issuance_frame_witness :
  constraints_ok issued = true /\
  reply at_again (Signup alice (JObj [("set", JStr "Bob")])) issued =
    Some (inr (signed_up "a@x.com" (Some "Bob"))) /\
  exists u',
    serve at_again (Signup alice (JObj [("set", JStr "Bob")])) issued !! 0%nat
      = Some u' /\
    id u' = "cuid-1" /\ Db.email u' = "a@x.com" /\
    verified u' = false /\ createdAt u' = 1000 /\
    (u' = alice_issued \/
     (alice = JStr "a@x.com" /\ holds_token at_again u' /\
      name u' = Some "Bob")).
Proof.
  split; [reflexivity |]. split; [reflexivity |].
  apply (issuance_frame at_again (Signup alice (JObj [("set", JStr "Bob")]))
           alice issued 0%nat alice_issued);
    [reflexivity | exact (addressed_signup _ _) | reflexivity].
Defined.

Lemma create_keeps_constraints (s : store) (u : User) :
  constraints_ok s = true ->
  id u ∉ id <$> s -> email u ∉ email <$> s ->
  (forall t, magicLinkToken u = Some t -> t ∉ tokens s) ->
  constraints_ok (s ++ [u]) = true.
Proof.
  rewrite !constraints_ok_spec, !fmap_app, tokens_app.
  intros (Hi & He & Ht) Hid Hmail Htok. repeat split.
  - apply NoDup_app. repeat split; [done | | apply NoDup_singleton].
    intros x Hx ->%list_elem_of_singleton. done.
  - apply NoDup_app. repeat split; [done | | apply NoDup_singleton].
    intros x Hx ->%list_elem_of_singleton. done.
  - apply NoDup_app. repeat split; [done | |].
    + intros x Hx. unfold tokens. cbn [omap list_omap].
      destruct (magicLinkToken u) as [t|] eqn:Hu; [| apply not_elem_of_nil].
      intros ->%list_elem_of_singleton. by apply (Htok t).
    + unfold tokens. cbn [omap list_omap].
      destruct (magicLinkToken u); [apply NoDup_singleton | constructor].
Qed.

(** X6. Signup for an address without an account, with a name Prisma can
    store, a cuid and a token not yet in the table, appends exactly one
    row: unverified, holding the drawn token with its expiry, named as
    given (or NULL). One mail goes to the address with the link to that
    token; the answer is 200 with the address and name, or the 500 of the
    endpoint when the transport fails. *)
Theorem signup_creates (s : store) (e : env) (addr : string) (name : jsval) :
  constraints_ok s = true ->
  has_at addr -> addr ∉ email <$> s -> name_storable name ->
  cuid e ∉ id <$> s -> drawn e ∉ tokens s ->
  serve e (Signup (JStr addr) name) s = s ++ [created_row e addr name] /\
  mails (trace e (Signup (JStr addr) name) s) =
    [ {| mail_to := addr; mail_name := name;
         mail_link := magicLinkUrl e (drawn e) |} ] /\
  reply e (Signup (JStr addr) name) s =
    Some (inr (if smtp_ok e then signed_up addr (created_name name)
               else internal_error (Signup (JStr addr) name))).
Proof.
  intros Hc Hat%includes_at Hnew Hname Hid Htok.
  pose proof (email_accepted addr Hat) as Hok.
  pose proof (findFirst_email_None s addr Hnew) as Hf.
  assert (Hcreate : constraints_ok (s ++ [created_row e addr name]) = true).
  { apply create_keeps_constraints; [done.. |]. by intros t [= <-]. }
  assert (Hnm : exists nm, nullable_string_field name = Ret nm /\
                           default None nm = created_name name).
  { destruct Hname as [-> | [-> | [n ->]]]; eauto. }
  destruct Hnm as (nm & Hnm & Hdef).
  unfold created_row, drawn, expiry in Hcreate.
  cbn [serve trace reply].
  unfold signup, string_arg, new_token, new_expiry, await, sendMagicLinkEmail,
    call.
  rewrite Hok. cbn [bind try_catch run exec]. rewrite Hf, Hnm.
  cbn [bind try_catch run exec]. unfold create. rewrite Hdef, Hcreate.
  cbn [bind try_catch run exec]. by destruct (smtp_ok e).
Qed.

Lemma signup_creates_witness :
  constraints_ok issued = true /\
  serve at_bob (Signup bob JNull) issued = issued ++ [created_row at_bob "b@x.com" JNull] /\
  mails (trace at_bob (Signup bob JNull) issued) =
    [ {| mail_to := "b@x.com"; mail_name := JNull;
         mail_link := magicLinkUrl at_bob (drawn at_bob) |} ].
Proof.
  split; [reflexivity |].
  destruct (signup_creates issued at_bob "b@x.com" JNull) as (Hs & Hm & _);
    [ reflexivity | by exists "b", "x.com" | vm_compute | right; by left
    | vm_compute | vm_compute | ].
  - intros [H | H]%elem_of_cons; [discriminate H | by apply elem_of_nil in H].
  - intros [H | H]%elem_of_cons; [discriminate H | by apply elem_of_nil in H].
  - intros [H | H]%elem_of_cons; [discriminate H | by apply elem_of_nil in H].
  - split; [exact Hs | exact Hm].
Defined.

(** X7. Resend tells the three kinds of address apart: an address without
    an account is answered 404 "No account found with this email", the
    address of a verified account 400 "Account is already verified"; in
    both cases the one call is the lookup and the table is untouched. *)
Theorem resend_answers (s : store) (e : env) :
  well_formed s = true ->
  (forall a : string,
      has_at a -> a ∉ email <$> s ->
      run e (resend e (JStr a)) s =
        (inr (failure 404 "No account found with this email"), s,
         [Called (FindUnique [EmailIs a])])) /\
  (forall u : User,
      u ∈ s -> verified u = true ->
      run e (resend e (JStr (email u))) s =
        (inr (failure 400 "Account is already verified"), s,
         [Called (FindUnique [EmailIs (email u)])])).
Proof.
  intros Hwf. split.
  - intros a Ha%includes_at Hnew.
    unfold resend, string_arg, call. rewrite (email_accepted a Ha).
    cbn [bind try_catch run exec]. by rewrite (findFirst_email_None s a Hnew).
  - intros u Hu Hv. destruct (stored_email_accepted s u Hwf Hu) as [Hok Hf].
    unfold resend, string_arg, call. rewrite Hok.
    cbn [bind try_catch run exec]. by rewrite Hf, Hv.
Qed.

Lemma resend_answers_witness :
  well_formed claimed = true /\
  run at_again (resend at_again bob) claimed =
    (inr (failure 404 "No account found with this email"), claimed,
     [Called (FindUnique [EmailIs "b@x.com"])]) /\
  run at_again (resend at_again alice) claimed =
    (inr (failure 400 "Account is already verified"), claimed,
     [Called (FindUnique [EmailIs "a@x.com"])]).
Proof.
  split; [reflexivity |].
  destruct (resend_answers claimed at_again) as [Hnone Hver]; [reflexivity |].
  split.
  - apply (Hnone "b@x.com"); [by exists "b", "x.com" | vm_compute].
    intros [H | H]%elem_of_cons; [discriminate H | by apply elem_of_nil in H].
  - apply (Hver alice_verified); [vm_compute; left | reflexivity].
Defined.

(** ** What every reachable table looks like *)

Lemma written_row_consistent (d : update_data) (now : Z) (u : User) :
  d = claim_data \/ d = cleanup_data \/
    (exists nm t x, d = issue_data nm t x) ->
  row_consistent (apply_update d now u).
Proof.
  intros [-> | [-> | (nm & t & x & ->)]]; by split.
Qed.

Lemma write_where_consistent (w : list cond) (d : update_data) (now : Z) (s : store) :
  d = claim_data \/ d = cleanup_data \/
    (exists nm t x, d = issue_data nm t x) ->
  Forall row_consistent s -> Forall row_consistent (write_where w d now s).
Proof.
  intros Hd Hs. unfold write_where. apply Forall_fmap.
  eapply Forall_impl; [exact Hs |]. intros u Hu. cbn.
  destruct (matches w u); [by apply written_row_consistent | done].
Qed.

Lemma transition_consistent (e : env) (s s' : store) (r : request) :
  transition e s r s' -> Forall row_consistent s -> Forall row_consistent s'.
Proof.
  destruct 1; subst; intros Hs; [done | ..].
  - apply Forall_app. split; [done |]. apply Forall_singleton. by split.
  - apply write_where_consistent; [| done]. right. right. eauto.
  - apply write_where_consistent; [| done]. by left.
  - apply write_where_consistent; [| done]. right. by left.
Qed.

Lemma serve_all_consistent (rs : list (env * request)) (s : store) :
  Forall row_consistent s -> Forall row_consistent (serve_all rs s).
Proof.
  revert s. induction rs as [|[e r] rs IH]; intros s Hs; [done |].
  cbn [serve_all]. apply IH.
  eapply transition_consistent; [apply serve_transition | done].
Qed.

(** X8. In every table the server can reach from an empty database the
    schema's unique constraints hold, every stored address contains '@'
    and every stored token is 64 characters long; each row stores token
    and expiry together, and a row marked used holds no token and is
    verified. So a row that holds a token is never marked used, and the
    [magicLinkUsed: false] condition of the lookup in [verify] never
    changes what the lookup finds. *)
Theorem reachable_rows_consistent (s : store) :
  reachable s ->
  well_formed s = true /\
  forall u : User,
    u ∈ s ->
    row_consistent u /\
    forall (t : string) (now : Z),
      matches [TokenIs t; ExpiresGt now] u = matches (live t now) u.
Proof.
  intros Hreach. split; [by apply reachable_well_formed |].
  destruct Hreach as [rs ->].
  pose proof (serve_all_consistent rs [] (Forall_nil_2 _)) as Hall.
  rewrite Forall_forall in Hall.
  intros u Hu. specialize (Hall u Hu). split; [done |].
  destruct Hall as [_ Hused]. intros t now.
  unfold live, matches. cbn [forallb holds].
  destruct (magicLinkToken u) as [t'|] eqn:Ht; [| done].
  destruct (magicLinkUsed u); [| done].
  by destruct (Hused eq_refl).
Qed.

Lemma reachable_rows_consistent_witness :
  reachable claimed /\ well_formed claimed = true /\
  row_consistent alice_verified.
Proof.
  assert (Hreach : reachable claimed).
  { exists [(at_signup, Signup alice (JStr "A")); (at_click, Verify (JStr T1))].
    reflexivity. }
  split; [exact Hreach |].
  destruct (reachable_rows_consistent claimed Hreach) as [Hwf Hrows].
  split; [exact Hwf |].
  apply (Hrows alice_verified). vm_compute. left.
Defined.

Lemma transition_keeps (e : env) (s s' : store) (r : request) (i : nat) (u : User) :
  transition e s r s' -> s !! i = Some u ->
  exists u', s' !! i = Some u' /\ id u' = id u /\ email u' = email u /\
             createdAt u' = createdAt u.
Proof.
  destruct 1; subst; intros Hu; [by eauto | ..].
  - exists u. split; [| done]. rewrite lookup_app_l; [done |].
    by eapply lookup_lt_Some.
  - rewrite (write_where_row _ _ _ _ _ _ Hu). eexists. split; [done |].
    by destruct (matches _ u).
  - rewrite (write_where_row _ _ _ _ _ _ Hu). eexists. split; [done |].
    by destruct (matches _ u).
  - rewrite (write_where_row _ _ _ _ _ _ Hu). eexists. split; [done |].
    by destruct (matches _ u).
Qed.

(** X9. No request ever removes an account or changes who it is: through
    any sequence of signup, login, verify, resend and cleanup requests
    every row stays at its place with the same id, address and creation
    time, so the table never gets shorter. *)
Theorem accounts_persist (rs : list (env * request)) (s : store) :
  (forall (i : nat) (u : User),
      s !! i = Some u ->
      exists u', serve_all rs s !! i = Some u' /\ id u' = id u /\
                 email u' = email u /\ createdAt u' = createdAt u) /\
  (List.length s <= List.length (serve_all rs s))%nat.
Proof.
  assert (Hrows : forall (i : nat) (u : User),
             s !! i = Some u ->
             exists u', serve_all rs s !! i = Some u' /\ id u' = id u /\
                        email u' = email u /\ createdAt u' = createdAt u).
  { revert s. induction rs as [|[e r] rs IH]; intros s i u Hu; [by eauto |].
    cbn [serve_all].
    destruct (transition_keeps e s _ r i u (serve_transition e r s) Hu)
      as (u1 & Hu1 & Hid & Hmail & Hat).
    destruct (IH _ i u1 Hu1) as (u' & Hu' & Hid' & Hmail' & Hat').
    exists u'. repeat split; [done | congruence..]. }
  split; [exact Hrows |].
  destruct (decide (List.length s <= List.length (serve_all rs s))%nat)
    as [|Hlt]; [done |].
  destruct (lookup_lt_is_Some_2 s (List.length (serve_all rs s))) as [u Hu];
    [lia |].
  destruct (Hrows _ u Hu) as (u' & Hu' & _).
  apply lookup_lt_Some in Hu'. lia.
Qed.

(** ** Mails *)

Lemma mails_cases (e : env) (r : request) (s : store) :
  mails (trace e r s) = [] \/
  exists addr name,
    issuance addr r /\
    mails (trace e r s) =
      [ {| mail_to := addr; mail_name := name;
           mail_link := magicLinkUrl e (drawn e) |} ].
Proof.
  destruct r; cbn [trace]; run_cases; cbn [mails omap list_omap];
    try (by left).
  all: right; do 2 eexists; split; [constructor | reflexivity].
Qed.

(** X10. A request sends at most one mail, and only an issuance sends
    one: [verify] and the cleanup never do. A mail goes to the address
    the request named, after that address's row was written, and its link
    is [http://localhost:PORT/?token=] followed by the very token that
    row now holds. *)
Theorem mail_discipline (e : env) (r : request) (s : store) (m : mail) :
  m ∈ mails (trace e r s) ->
  mails (trace e r s) = [m] /\
  issuance (mail_to m) r /\
  mail_link m =
    "http://localhost:" +:+ env_text (PORT e) +:+ "/?token=" +:+ drawn e /\
  exists u', u' ∈ serve e r s /\ email u' = mail_to m /\ holds_token e u'.
Proof.
  intros Hm.
  destruct (mails_cases e r s) as [Hnone | (addr & name & Hr & Hone)].
  { rewrite Hnone in Hm. by apply elem_of_nil in Hm. }
  assert (Hsent : mails (trace e r s) <> []) by by rewrite Hone.
  rewrite Hone in Hm. apply list_elem_of_singleton in Hm. subst m.
  destruct (issuance_notified e r addr s Hr Hsent) as (Hp & _).
  destruct (persisted_row e addr s _ Hp) as (u' & Hu' & Hmail & Htok & _).
  repeat split; [done.. |]. eauto.
Qed.

Lemma mail_discipline_witness :
  issuance "a@x.com" (Signup alice (JStr "A")) /\
  exists u', u' ∈ issued /\ email u' = "a@x.com" /\ holds_token at_signup u'.
Proof.
  destruct (mail_discipline at_signup (Signup alice (JStr "A")) []
              {| mail_to := "a@x.com"; mail_name := JStr "A";
                 mail_link := magicLinkUrl at_signup T1 |})
    as (_ & Hr & _ & Hrow); [vm_compute; left |].
  split; [exact Hr | exact Hrow].
Defined.

(** ** The cleanup, composed *)

Lemma cleanup_run_full (e : env) (s : store) :
  constraints_ok s = true ->
  run e cleanupExpiredTokens s =
    (inr (List.length (List.filter (matches (sweep (clock e))) s)),
     write_where (sweep (clock e)) cleanup_data (clock e) s,
     [Called DateNow; Called (UpdateMany (sweep (clock e)) cleanup_data)]).
Proof.
  intros Hc. unfold cleanupExpiredTokens, call, await.
  cbn [bind try_catch run exec]. unfold updateMany.
  by rewrite (clearing_keeps_constraints _ cleanup_data _ s eq_refl Hc).
Qed.

Lemma swept_twice (now1 now2 : Z) (s : store) (u' : User) :
  now2 <= now1 ->
  u' ∈ write_where (sweep now1) cleanup_data now1 s ->
  matches (sweep now2) u' = false.
Proof.
  intros Hle (u & -> & Hu)%elem_of_write_where.
  destruct (matches (sweep now1) u) eqn:Hm1.
  - unfold sweep, matches. by cbn.
  - destruct (matches (sweep now2) u) eqn:Hm2; [| done].
    apply matches_sweep in Hm2 as [(x & Hx & Hlt) Ht].
    assert (matches (sweep now1) u = true); [| congruence].
    apply matches_sweep. split; [| done]. exists x. split; [done | lia].
Qed.

Lemma filter_none {A : Type} (p : A -> bool) (l : list A) :
  (forall x, x ∈ l -> p x = false) -> List.filter p l = [].
Proof.
  induction l as [|x l IH]; intros Hp; [done |]. cbn.
  rewrite (Hp x) by by left. apply IH. intros y Hy. apply Hp. by right.
Qed.

Lemma swept_count (w : list cond) (now : Z) (s : store) :
  (forall u, matches w u = true -> exists t, magicLinkToken u = Some t) ->
  (List.length (tokens (write_where w cleanup_data now s)) +
   List.length (List.filter (matches w) s))%nat = List.length (tokens s).
Proof.
  intros Hw. unfold tokens, write_where.
  induction s as [|u s IH]; [done |].
  cbn [fmap list_fmap omap list_omap List.filter].
  destruct (matches w u) eqn:Hm.
  - destruct (Hw u Hm) as [t Ht]. rewrite Ht. cbn. cbn in IH. lia.
  - destruct (magicLinkToken u); cbn; cbn in IH; lia.
Qed.

(** X11. The cleanup reports as many rows as it takes tokens out of the
    table, and running it again at the same or an earlier clock finds
    nothing left to do: the second run reports 0 and leaves every row,
    [updatedAt] included, as the first run left it. *)
Theorem cleanup_idempotent (s : store) (e1 e2 : env) :
  constraints_ok s = true -> clock e2 <= clock e1 ->
  (exists n : nat,
      (run e1 cleanupExpiredTokens s).1.1 = inr n /\
      (List.length (tokens (serve e1 Cleanup s)) + n)%nat =
        List.length (tokens s)) /\
  run e2 cleanupExpiredTokens (serve e1 Cleanup s) =
    (inr 0%nat, serve e1 Cleanup s,
     [Called DateNow;
      Called (UpdateMany [ExpiresLt (clock e2); TokenNotNull] cleanup_data)]).
Proof.
  intros Hc Hle. cbn [serve]. rewrite (cleanup_run_full e1 s Hc). cbn [fst snd].
  split.
  - eexists. split; [done |]. apply swept_count.
    by intros u [_ ?]%matches_sweep.
  - rewrite cleanup_run_full
      by by apply (clearing_keeps_constraints _ cleanup_data).
    rewrite filter_none by (intros u' Hu'; by eapply swept_twice).
    rewrite write_where_no_match by (intros u' Hu'; by eapply swept_twice).
    done.
Qed.

Lemma cleanup_idempotent_witness :
  constraints_ok issued = true /\
  (exists n : nat,
      (run too_late cleanupExpiredTokens issued).1.1 = inr n /\
      (List.length (tokens (serve too_late Cleanup issued)) + n)%nat =
        List.length (tokens issued)) /\
  run too_late cleanupExpiredTokens (serve too_late Cleanup issued) =
    (inr 0%nat, serve too_late Cleanup issued,
     [Called DateNow;
      Called (UpdateMany [ExpiresLt (clock too_late); TokenNotNull] cleanup_data)]).
Proof.
  split; [reflexivity |].
  apply (cleanup_idempotent issued too_late too_late);
    [reflexivity | vm_compute; discriminate].
Defined.

Lemma findFirst_swept (w : cond) (nc nv : Z) (s : store) :
  nc <= nv ->
  findFirst [w; UsedIs false; ExpiresGt nv]
    (write_where (sweep nc) cleanup_data nc s) =
    findFirst [w; UsedIs false; ExpiresGt nv] s.
Proof.
  intros Hle. unfold findFirst, write_where.
  induction s as [|u s IH]; [done |]. cbn [fmap list_fmap List.find].
  destruct (matches (sweep nc) u) eqn:Hm; [| by rewrite IH].
  apply matches_sweep in Hm as [(x & Hx & Hlt) _].
  assert (matches [w; UsedIs false; ExpiresGt nv]
            (apply_update cleanup_data nc u) = false) as ->.
  { destruct (matches _ (apply_update _ _ _)) eqn:Hl; [| done].
    by apply matches_lookup in Hl as (_ & _ & y & Hy & _). }
  assert (matches [w; UsedIs false; ExpiresGt nv] u = false) as ->; [| done].
  destruct (matches _ u) eqn:Hl; [| done].
  apply matches_lookup in Hl as (_ & _ & y & Hy & Hgt). simplify_eq. lia.
Qed.

(** The answer of [verify], case by case. *)
Lemma verify_answer (e : env) (token : jsval) (s : store) :
  constraints_ok s = true ->
  reply e (Verify token) s =
    Some (inr (if negb (truthy token)
               then failure 400 "Verification token is required"
               else match token_cond e token with
                    | None => internal_error (Verify token)
                    | Some w =>
                        match findFirst [w; UsedIs false; ExpiresGt (clock e)] s with
                        | None => invalid_or_expired
                        | Some u =>
                            match JWT_SECRET e with
                            | Some (String _ _) => welcome e u
                            | _ => internal_error (Verify token)
                            end
                        end
                    end)).
Proof.
  intros Hc. pose proof Hc as (Hids & _ & _)%constraints_ok_spec.
  cbn [reply]. unfold verify, token_arg, jwt_sign, call, await.
  destruct (negb (truthy token)); [done |].
  cbn [run bind try_catch exec fst snd].
  destruct (token_cond e token) as [w|]; [| done].
  cbn [run bind try_catch exec fst snd].
  destruct (findFirst _ s) as [u|] eqn:Hf; [| done].
  apply findFirst_Some in Hf as [Hu _].
  cbn [run bind try_catch exec fst snd]. unfold update.
  rewrite (findFirst_id s u Hids Hu).
  rewrite (clearing_keeps_constraints _ claim_data _ s eq_refl Hc).
  cbn [run bind try_catch exec fst snd].
  by destruct (JWT_SECRET e) as [[|c k]|].
Qed.

(** The table after [verify], case by case. *)
Lemma verify_table (e : env) (token : jsval) (s : store) :
  constraints_ok s = true ->
  serve e (Verify token) s =
    if negb (truthy token) then s
    else match token_cond e token with
         | None => s
         | Some w =>
             match findFirst [w; UsedIs false; ExpiresGt (clock e)] s with
             | None => s
             | Some u => write_where [IdIs (id u)] claim_data (clock e) s
             end
         end.
Proof.
  intros Hc. pose proof Hc as (Hids & _ & _)%constraints_ok_spec.
  cbn [serve]. unfold verify, token_arg, jwt_sign, call, await.
  destruct (negb (truthy token)); [done |].
  cbn [run bind try_catch exec fst snd].
  destruct (token_cond e token) as [w|]; [| done].
  cbn [run bind try_catch exec fst snd].
  destruct (findFirst _ s) as [u|] eqn:Hf; [| done].
  apply findFirst_Some in Hf as [Hu _].
  cbn [run bind try_catch exec fst snd]. unfold update.
  rewrite (findFirst_id s u Hids Hu).
  rewrite (clearing_keeps_constraints _ claim_data _ s eq_refl Hc).
  cbn [run bind try_catch exec fst snd].
  by destruct (JWT_SECRET e) as [[|c k]|].
Qed.

(** A filter that two live rows meet verifies twice: whatever the table,
    when the lookup made of the presented value finds one row and another
    row meets it too, the request is answered 200 and, served again, 200
    once more. Two rows never hold the same token, so no string does
    this. *)
Lemma filter_verifies_again
    (s : store) (e1 e2 : env) (token : jsval) (w : cond) (u1 u2 : User) :
  constraints_ok s = true -> truthy token = true ->
  token_cond e1 token = Some w -> token_cond e2 token = Some w ->
  has_secret e1 -> has_secret e2 ->
  findFirst [w; UsedIs false; ExpiresGt (clock e1)] s = Some u1 ->
  u2 ∈ s -> u2 <> u1 ->
  matches [w; UsedIs false; ExpiresGt (clock e2)] u2 = true ->
  reply e1 (Verify token) s = Some (inr (welcome e1 u1)) /\
  exists v, reply e2 (Verify token) (serve e1 (Verify token) s) =
              Some (inr (welcome e2 v)).
Proof.
  intros Hc Ht Hw1 Hw2 (c1 & k1 & Hk1) (c2 & k2 & Hk2) Hf Hu2 Hne Hm.
  pose proof Hc as (Hids & _ & _)%constraints_ok_spec.
  pose proof Hf as [Hu1 _]%findFirst_Some.
  rewrite verify_table, !verify_answer, Ht, Hw1, Hw2, Hf, Hk1, Hk2;
    [| by rewrite Ht, Hw1, Hf; apply (clearing_keeps_constraints _ claim_data)
     | done | done ].
  cbn [negb]. split; [done |].
  destruct (findFirst_is_Some [w; UsedIs false; ExpiresGt (clock e2)]
              (write_where [IdIs (id u1)] claim_data (clock e1) s) u2)
    as [v ->]; [| done | by eauto].
  apply elem_of_write_where. exists u2. split; [| done].
  destruct (matches [IdIs (id u1)] u2) eqn:Hid; [| done].
  apply matches_id in Hid. destruct Hne. by apply (unique_by id s).
Qed.

(** X12. The cleanup is invisible to verification: a [verify] served at
    or after the clock of a cleanup gets the same answer whether or not
    the cleanup ran first, since the rows the cleanup clears are exactly
    rows whose token had already expired. *)
Theorem cleanup_transparent_to_verify
    (s : store) (ec ev : env) (token : jsval) :
  constraints_ok s = true -> clock ec <= clock ev ->
  reply ev (Verify token) (serve ec Cleanup s) = reply ev (Verify token) s.
Proof.
  intros Hc Hle. rewrite (cleanup_run ec s Hc).
  rewrite !verify_answer;
    [| done | by apply (clearing_keeps_constraints _ cleanup_data)].
  destruct (token_cond ev token) as [w|]; [| done].
  by rewrite (findFirst_swept _ _ _ s Hle).
Qed.

Lemma cleanup_transparent_to_verify_witness :
  constraints_ok issued = true /\
  reply too_late (Verify (JStr T1)) (serve too_late Cleanup issued) =
    reply too_late (Verify (JStr T1)) issued.
Proof.
  split; [reflexivity |].
  apply (cleanup_transparent_to_verify issued too_late too_late (JStr T1));
    [reflexivity | vm_compute; discriminate].
Defined.

(** ** Tokens *)

Lemma digit_hex (n : N) : hex_char (Hex.digit n).
Proof.
  unfold hex_char.
  destruct n as [|p]; [cbn; tauto |].
  do 4 (try destruct p as [p|p|]); cbn; tauto.
Qed.

Lemma toString_hex (bs : list byte) :
  Forall hex_char (list_ascii_of_string (Hex.toString bs)).
Proof.
  induction bs as [|b bs IH]; [constructor |].
  cbn [Hex.toString list_ascii_of_string].
  by repeat (constructor; [apply digit_hex |]).
Qed.

Lemma undigit_digit (n : N) : (n < 16)%N -> undigit (Hex.digit n) = n.
Proof.
  intros Hn. destruct n as [|p]; [done |].
  do 4 (try destruct p as [p|p|]); try done; lia.
Qed.

Lemma byte_of_digits (b b' : byte) :
  Hex.digit (Byte.to_N b / 16) = Hex.digit (Byte.to_N b' / 16) ->
  Hex.digit (Byte.to_N b mod 16) = Hex.digit (Byte.to_N b' mod 16) ->
  b = b'.
Proof.
  intros Hhi Hlo.
  pose proof (Byte.to_N_bounded b) as Hb. pose proof (Byte.to_N_bounded b') as Hb'.
  apply (f_equal undigit) in Hhi, Hlo.
  rewrite !undigit_digit in Hhi, Hlo;
    try (apply N.mod_lt; lia); try (apply N.Div0.div_lt_upper_bound; lia).
  assert (Heq : Byte.to_N b = Byte.to_N b').
  { rewrite (N.div_mod (Byte.to_N b) 16), (N.div_mod (Byte.to_N b') 16) by lia.
    by rewrite Hhi, Hlo. }
  apply (f_equal Byte.of_N) in Heq. rewrite !Byte.of_to_N in Heq.
  by injection Heq.
Qed.

Lemma toString_inj (bs bs' : list byte) :
  Hex.toString bs = Hex.toString bs' -> bs = bs'.
Proof.
  revert bs'. induction bs as [|b bs IH]; intros [|b' bs']; try done.
  cbn [Hex.toString]. intros [= Hhi Hlo Hrest].
  f_equal; [by apply byte_of_digits | by apply IH].
Qed.

(** X13. A token is 64 characters, each one of [0123456789abcdef], so it
    goes into the link's query string as it is; and two draws give the
    same token only if all 32 random bytes agree. *)
Theorem token_format (e e' : env) :
  String.length (drawn e) = 64%nat /\
  Forall hex_char (list_ascii_of_string (drawn e)) /\
  (drawn e = drawn e' <->
   forall i : nat, (i < 32)%nat -> entropy e i = entropy e' i).
Proof.
  split; [apply drawn_length |]. split; [apply toString_hex |].
  unfold drawn. split.
  - intros Heq%toString_inj i Hi.
    apply (f_equal (fun l => l !! i)) in Heq.
    rewrite !list_lookup_fmap, !lookup_seq_lt in Heq by done.
    by injection Heq.
  - intros Hsame. f_equal. apply list_fmap_ext.
    intros i x [-> Hx]%lookup_seq. by apply Hsame.
Qed.

(** ** Two signups in flight together *)

Lemma duplicate_email_rejected (s : store) (u : User) :
  email u ∈ email <$> s -> constraints_ok (s ++ [u]) = false.
Proof.
  intros Hdup. unfold constraints_ok.
  assert (bool_decide (NoDup (email <$> s ++ [u])) = false) as ->;
    [| by rewrite andb_false_r].
  apply bool_decide_eq_false. rewrite fmap_app.
  intros (_ & Hno & _)%NoDup_app. apply (Hno _ Hdup). by left.
Qed.

(** X14. When two signups for the same new address are in flight together
    and both look the address up before either creates the row, the
    [@unique] constraint on [email] decides the race: the first create is
    stored, the second is refused and answered 500 "Failed to create
    account. Please try again.", and the table holds one row for the
    address. *)
Theorem concurrent_signup_one_account
    (s : store) (e1 e2 : env) (addr : string) (n1 n2 : jsval) :
  constraints_ok s = true ->
  has_at addr -> addr ∉ email <$> s ->
  name_storable n1 -> name_storable n2 ->
  cuid e1 ∉ id <$> s -> drawn e1 ∉ tokens s ->
  (interleave lookups_first (two_signups e1 e2 addr n1 n2) s).2 =
    s ++ [created_row e1 addr n1] /\
  answer <$> (interleave lookups_first (two_signups e1 e2 addr n1 n2) s).1 =
    [ Some (if smtp_ok e1 then signed_up addr (created_name n1)
            else internal_error (Signup (JStr addr) n1));
      Some (internal_error (Signup (JStr addr) n2)) ].
Proof.
  intros Hc Hat%includes_at Hnew Hn1 Hn2 Hid Htok.
  pose proof (email_accepted addr Hat) as Hok.
  pose proof (findFirst_email_None s addr Hnew) as Hf.
  assert (Hfirst : constraints_ok (s ++ [created_row e1 addr n1]) = true).
  { apply create_keeps_constraints; [done.. |]. by intros t [= <-]. }
  assert (Hsecond :
    constraints_ok ((s ++ [created_row e1 addr n1]) ++ [created_row e2 addr n2])
      = false).
  { apply duplicate_email_rejected. rewrite fmap_app. apply elem_of_app.
    right. by left. }
  assert (Hnm : forall n, name_storable n ->
            exists nm, nullable_string_field n = Ret nm /\
                       default None nm = created_name n).
  { intros n [-> | [-> | [x ->]]]; eauto. }
  destruct (Hnm n1 Hn1) as (nm1 & Hnm1 & Hdef1).
  destruct (Hnm n2 Hn2) as (nm2 & Hnm2 & Hdef2).
  unfold created_row, drawn, expiry in Hfirst, Hsecond.
  assert (Hrun :
    interleave lookups_first (two_signups e1 e2 addr n1 n2) s =
      ([ {| thread_env := e1;
            thread_prog := Ret (if smtp_ok e1
                                then signed_up addr (created_name n1)
                                else internal_error (Signup (JStr addr) n1)) |};
         {| thread_env := e2;
            thread_prog := Ret (internal_error (Signup (JStr addr) n2)) |} ],
       s ++ [created_row e1 addr n1])).
  { unfold two_signups, lookups_first, signup, string_arg, new_token,
      new_expiry, await, sendMagicLinkEmail, call.
    rewrite Hok.
    cbn [interleave lookup list_lookup step thread_prog thread_env bind
         try_catch exec insert list_insert fst snd].
    rewrite Hf, Hnm1, Hnm2.
    cbn [interleave lookup list_lookup step thread_prog thread_env bind
         try_catch exec insert list_insert fst snd].
    unfold create at 1. rewrite Hdef1, Hfirst.
    cbn [interleave lookup list_lookup step thread_prog thread_env bind
         try_catch exec insert list_insert fst snd].
    destruct (smtp_ok e1);
      cbn [interleave lookup list_lookup step thread_prog thread_env bind
           try_catch exec insert list_insert fst snd];
      unfold create at 1; rewrite Hdef2, Hsecond;
      cbn [interleave lookup list_lookup step thread_prog thread_env bind
           try_catch exec insert list_insert fst snd];
      done. }
  by rewrite Hrun.
Qed.

(** ** Sessions *)

Lemma transition_account (e : env) (s s' : store) (r : request) (i : nat) (u : User) :
  transition e s r s' -> s !! i = Some u -> verified u = true ->
  exists u', s' !! i = Some u' /\ id u' = id u /\ email u' = email u /\
             verified u' = true.
Proof.
  intros Htr Hu Hv.
  destruct (transition_row e s s' r i u Htr Hu) as (u' & Hu' & Hid & Hmail & Hv').
  exists u'. auto.
Qed.

Lemma serve_all_account (rs : list (env * request)) (s : store) (i : nat) (u : User) :
  s !! i = Some u -> verified u = true ->
  exists u', serve_all rs s !! i = Some u' /\ id u' = id u /\
             email u' = email u /\ verified u' = true.
Proof.
  revert s u. induction rs as [|[e r] rs IH]; intros s u Hu Hv; [by eauto |].
  cbn [serve_all].
  destruct (transition_account e s _ r i u (serve_transition e r s) Hu Hv)
    as (u1 & Hu1 & Hid & Hmail & Hv1).
  destruct (IH _ u1 Hu1 Hv1) as (u' & Hu' & Hid' & Hmail' & Hv').
  exists u'. repeat split; [done | congruence.. | done].
Qed.

Lemma serve_all_constraints (rs : list (env * request)) (s : store) :
  constraints_ok s = true -> constraints_ok (serve_all rs s) = true.
Proof.
  revert s. induction rs as [|[e r] rs IH]; intros s Hs; [done |].
  cbn [serve_all]. apply IH.
  eapply transition_constraints; [apply serve_transition | done].
Qed.

Lemma me_accepts (e : env) (s : store) (u : User) (k : string) (claims : jwt) :
  constraints_ok s = true -> u ∈ s ->
  JWT_SECRET e = Some k -> k <> "" ->
  clock e / 1000 < exp claims -> userId claims = id u ->
  run e (me e (Some (Signed k claims))) s =
    (inr {| me_status := 200; me_success := true; me_message := None;
            me_data := Some (profile_of u) |}, s,
     [Called DateNow; Called (FindUnique [IdIs (id u)])]).
Proof.
  intros (Hids & _ & _)%constraints_ok_spec Hu Hk Hne Hexp Hid.
  unfold me, jwt_verify, call. rewrite Hk. destruct k as [|c k]; [done |].
  cbn [run bind try_catch exec fst snd]. rewrite String.eqb_refl.
  assert ((exp claims <=? clock e / 1000) = false) as -> by by apply Z.leb_gt.
  cbn [negb run bind try_catch exec fst snd].
  by rewrite Hid, (findFirst_id s u Hids Hu).
Qed.

(** X15. The session cookie works for its seven days: after a [verify]
    answered 200, the cookie it set is accepted by [/api/me] under the
    same secret at any clock before the token's [exp], whatever requests
    were served in between; the answer is 200 with the current row of the
    account that was verified, found by the id in the cookie, and that row
    is still verified. *)
Theorem session_round_trip
    (s : store) (e e' : env) (token : jsval) (resp : response)
    (c : credential)
    (later : list (env * request)) :
  constraints_ok s = true ->
  reply e (Verify token) s = Some (inr resp) -> status resp = 200 ->
  credential_of e resp = Some c ->
  JWT_SECRET e' = JWT_SECRET e ->
  clock e' / 1000 < clock e / 1000 + 7 * 24 * 60 * 60 ->
  exists u',
    u' ∈ serve_all later (serve e (Verify token) s) /\
    verified u' = true /\
    (exists nm, data resp = Profile (id u') (email u') nm true) /\
    run e' (me e' (Some c)) (serve_all later (serve e (Verify token) s)) =
      (inr {| me_status := 200; me_success := true; me_message := None;
              me_data := Some (profile_of u') |},
       serve_all later (serve e (Verify token) s),
       [Called DateNow; Called (FindUnique [IdIs (id u')])]).
Proof.
  intros Hc Hreply Hst Hcred Hsame Hexp.
  rewrite verify_table by done. rewrite verify_answer in Hreply by done.
  destruct (negb (truthy token)); [by injection Hreply as <- |].
  destruct (token_cond e token) as [w|]; [| by injection Hreply as <-].
  destruct (findFirst _ s) as [u0|] eqn:Hf; [| by injection Hreply as <-].
  destruct (JWT_SECRET e) as [[|c0 k]|] eqn:Hk;
    try (by injection Hreply as <-).
  injection Hreply as <-.
  unfold credential_of in Hcred. rewrite Hk in Hcred. injection Hcred as <-.
  pose proof Hf as [Hu0 Hm]%findFirst_Some.
  apply list_elem_of_lookup_1 in Hu0 as [i Hi].
  assert (Hrow : write_where [IdIs (id u0)] claim_data (clock e) s !! i =
                 Some (claimed_row (clock e) u0)).
  { rewrite (write_where_row _ _ _ _ _ _ Hi).
    assert (matches [IdIs (id u0)] u0 = true) as -> by by apply matches_id.
    done. }
  destruct (serve_all_account later _ i _ Hrow eq_refl)
    as (u' & Hu' & Hid & Hmail & Hv).
  cbn in Hid, Hmail.
  assert (Hfinal : constraints_ok
            (serve_all later (write_where [IdIs (id u0)] claim_data (clock e) s))
            = true).
  { by apply serve_all_constraints, (clearing_keeps_constraints _ claim_data). }
  exists u'. split; [by eapply list_elem_of_lookup_2 |]. split; [done |].
  split; [exists (name u0); cbn; congruence |].
  apply me_accepts; [done | by eapply list_elem_of_lookup_2 | congruence | done
                    | by cbn | by cbn].
Qed.

Lemma session_round_trip_witness :
  constraints_ok issued = true /\
  exists u',
    u' ∈ serve_all [(at_again, Login alice); (too_late, Cleanup)] claimed /\
    verified u' = true /\
    run too_late (me too_late (Some alice_cookie))
        (serve_all [(at_again, Login alice); (too_late, Cleanup)] claimed) =
      (inr {| me_status := 200; me_success := true; me_message := None;
              me_data := Some (profile_of u') |},
       serve_all [(at_again, Login alice); (too_late, Cleanup)] claimed,
       [Called DateNow; Called (FindUnique [IdIs (id u')])]).
Proof.
  split; [reflexivity |].
  destruct (session_round_trip issued at_click too_late (JStr T1)
              (welcome at_click alice_issued) alice_cookie
              [(at_again, Login alice); (too_late, Cleanup)])
    as (u' & Hin & Hv & _ & Hrun);
    [ reflexivity | reflexivity | reflexivity | reflexivity | reflexivity
    | vm_compute; reflexivity | ].
  exists u'. split; [exact Hin |]. split; [exact Hv | exact Hrun].
Defined.

(** X16. [/api/me] turns away everything else with a 401 and without
    touching the table. No cookie, or an empty one, is "Authentication
    required" before any call. Text that is no JWT, a signature made with
    another key, an unset secret, and a token whose [exp] is at or before
    the clock in seconds are all "Invalid token", after the clock was read
    and before any lookup. A good token whose id is in no row is "User not
    found". *)
Theorem me_rejects (s : store) (e : env) :
  (forall held,
      held = None \/ held = Some (NotAToken "") ->
      run e (me e held) s =
        (inr (unauthorized "Authentication required"), s, [])) /\
  (forall c,
      (exists text, text <> "" /\ c = NotAToken text) \/
      (exists key claims,
          c = Signed key claims /\
          (JWT_SECRET e <> Some key \/ key = "" \/
           exp claims <= clock e / 1000)) ->
      run e (me e (Some c)) s =
        (inr (unauthorized "Invalid token"), s, [Called DateNow])) /\
  (forall key claims,
      JWT_SECRET e = Some key -> key <> "" ->
      clock e / 1000 < exp claims -> userId claims ∉ id <$> s ->
      run e (me e (Some (Signed key claims))) s =
        (inr (unauthorized "User not found"), s,
         [Called DateNow; Called (FindUnique [IdIs (userId claims)])])).
Proof.
  split; [| split].
  - by intros held [-> | ->].
  - intros c [(text & Hne & ->) | (key & claims & -> & Hbad)].
    + destruct text; [done |]. unfold me, jwt_verify, call.
      cbn [run bind try_catch exec fst snd]. by destruct (JWT_SECRET e) as [[|]|].
    + unfold me, jwt_verify, call. cbn [run bind try_catch exec fst snd].
      destruct (JWT_SECRET e) as [[|c0 k]|] eqn:Hk; try done.
      destruct (String.eqb_spec key (String c0 k)) as [-> | Hne]; [| done].
      cbn [negb]. destruct Hbad as [Hbad | [Hbad | Hbad]]; try done.
      assert ((exp claims <=? clock e / 1000) = true) as -> by by apply Z.leb_le.
      done.
  - intros key claims Hk Hne Hexp Hid.
    unfold me, jwt_verify, call. rewrite Hk. destruct key as [|c0 k]; [done |].
    cbn [run bind try_catch exec fst snd]. rewrite String.eqb_refl.
    assert ((exp claims <=? clock e / 1000) = false) as -> by by apply Z.leb_gt.
    cbn [negb run bind try_catch exec fst snd].
    destruct (findFirst [IdIs (userId claims)] s) as [u|] eqn:Hf; [| done].
    apply findFirst_Some in Hf as [Hu Hm%matches_id].
    destruct Hid. rewrite <- Hm. by apply list_elem_of_fmap_2.
Qed.

Lemma me_rejects_witness :
  run at_again (me at_again (Some (NotAToken "abc"))) claimed =
    (inr (unauthorized "Invalid token"), claimed, [Called DateNow]) /\
  run at_again
      (me at_again
         (Some (Signed "secret"
                  {| userId := "cuid-0"; jwt_email := "a@x.com";
                     jwt_verified := true; iat := 60; exp := 604860 |})))
      claimed =
    (inr (unauthorized "User not found"), claimed,
     [Called DateNow; Called (FindUnique [IdIs "cuid-0"])]).
Proof.
  destruct (me_rejects claimed at_again) as (_ & Hbad & Hgone). split.
  - apply Hbad. left. by exists "abc".
  - apply (Hgone "secret"); [reflexivity | done | reflexivity | vm_compute].
    intros [H | H]%elem_of_cons; [discriminate H | by apply elem_of_nil in H].
Defined.

(** X17. Logout is only a message to the browser: it makes no call and
    leaves the table alone, and [/api/me] never writes, so whatever
    [/api/me] answers to a cookie before a logout it answers after it. A
    cookie that was copied before the logout keeps working until it
    expires. *)
Theorem logout_keeps_session
    (e e' : env) (held : option credential) (s : store) :
  run e' logout s =
    (inr {| clearCookie := "auth_token";
            logout_body := {| status := 200; success := true;
                              message := "Successfully logged out";
                              data := NoData; set_cookie := None |} |},
     s, []) /\
  (run e (me e held) s).1.2 = s /\
  Forall (fun ev => is_db_write ev = false) (run e (me e held) s).2 /\
  run e (me e held) (run e' logout s).1.2 = run e (me e held) s.
Proof.
  split; [done |]. split; [| split; [| done]].
  - unfold me, jwt_verify, call.
    repeat (cbn [run bind try_catch exec fst snd]; try case_step); done.
  - unfold me, jwt_verify, call.
    repeat (cbn [run bind try_catch exec fst snd]; try case_step);
      by repeat constructor.
Qed.

(** ** Bodies that are not what the form sends *)

Lemma includes_in_array (l : list jsval) :
  existsb (fun v => match v with
                    | JStr y => String.eqb y "@"
                    | _ => false
                    end) l = true <-> JStr "@" ∈ l.
Proof.
  rewrite existsb_exists. split.
  - intros (v & Hv%list_elem_of_In & Hat). destruct v; try done.
    by apply String.eqb_eq in Hat as ->.
  - intros Hin. exists (JStr "@"). by split; [apply list_elem_of_In |].
Qed.

(** X18. An [email] member that is not a string is never looked up. The
    falsy ones ([false], [0]) and an array without the element "@" are
    answered 400 "Valid email is required"; [true], a non-zero number and
    an object make [email.includes] throw, and an array with the element
    "@" passes the check and is refused by Prisma: both are answered the
    endpoint's 500. In every case no call is made and the table is
    untouched. *)
Theorem email_not_a_string
    (e : env) (s : store) (r : request) (email : jsval) :
  addressed email r ->
  (email = JBool false \/ email = JNum 0 \/
   (exists l, email = JArr l /\ JStr "@" ∉ l) ->
   reply e r s = Some (inr invalid_input) /\
   serve e r s = s /\ trace e r s = []) /\
  (email = JBool true \/ (exists z, z <> 0 /\ email = JNum z) \/
   (exists fields, email = JObj fields) \/
   (exists l, email = JArr l /\ JStr "@" ∈ l) ->
   reply e r s = Some (inr (internal_error r)) /\
   serve e r s = s /\ trace e r s = []).
Proof.
  intros Hr. split.
  - intros Hbad.
    assert (Hrej : email_rejected email = Ret true).
    { destruct Hbad as [-> | [-> | (l & -> & Hl)]]; [done.. |].
      unfold email_rejected. cbn [truthy negb js_includes].
      destruct (existsb _ l) eqn:Hex; [| done].
      by apply includes_in_array in Hex. }
    destruct Hr; cbn [reply serve trace]; unfold signup, login, resend;
      by rewrite Hrej.
  - intros [-> | [(z & Hz & ->) | [(fields & ->) | (l & -> & Hl)]]].
    + by apply (email_without_includes e s r _ Hr).
    + apply (email_without_includes e s r _ Hr); [| done].
      cbn. by apply negb_true_iff, Z.eqb_neq.
    + by apply (email_without_includes e s r _ Hr).
    + assert (Hrej : email_rejected (JArr l) = Ret false).
      { unfold email_rejected. cbn [truthy negb js_includes].
        by apply includes_in_array in Hl as ->. }
      destruct Hr; cbn [reply serve trace]; unfold signup, login, resend;
        by rewrite Hrej.
Qed.

Lemma email_not_a_string_witness :
  (reply at_again (Login (JArr [JStr "a@x.com"])) issued =
     Some (inr invalid_input)) /\
  (reply at_again (Login (JArr [JStr "@"])) issued =
     Some (inr (failure 500 "Failed to send login link. Please try again."))) /\
  (reply at_again (Resend (JNum 42)) issued =
     Some (inr (failure 500 "Failed to send verification link. Please try again."))).
Proof.
  split; [| split].
  - destruct (email_not_a_string at_again issued (Login (JArr [JStr "a@x.com"]))
                (JArr [JStr "a@x.com"])) as [Hbad _];
      [exact (addressed_login _) |].
    apply Hbad. right. right. exists [JStr "a@x.com"]. split; [reflexivity |].
    intros [H | H]%elem_of_cons; [discriminate H | by apply elem_of_nil in H].
  - destruct (email_not_a_string at_again issued (Login (JArr [JStr "@"]))
                (JArr [JStr "@"])) as [_ Hthrow];
      [exact (addressed_login _) |].
    apply Hthrow. right. right. right. exists [JStr "@"].
    split; [reflexivity | left].
  - destruct (email_not_a_string at_again issued (Resend (JNum 42)) (JNum 42))
      as [_ Hthrow]; [exact (addressed_resend _) |].
    apply Hthrow. right. left. exists 42. split; [discriminate | reflexivity].
Defined.

(** X19. Signup with a [name] that is a boolean, a number or an array
    draws a token and then fails before anything is stored: for a new
    address always, for the address of an unverified account when the
    name is truthy (a falsy one, [false] or [0], is replaced by the stored
    name). The answer is 500 "Failed to create account. Please try
    again.", the table is untouched and no mail is sent. *)
Theorem signup_bad_name
    (s : store) (e : env) (addr : string) (name : jsval) :
  well_formed s = true ->
  has_at addr -> name_refused name ->
  addr ∉ email <$> s \/
    (truthy name = true /\
     exists u, u ∈ s /\ email u = addr /\ verified u = false) ->
  run e (signup e (JStr addr) name) s =
    (inr (internal_error (Signup (JStr addr) name)), s,
     [Called (FindUnique [EmailIs addr]); Called (RandomBytes 32);
      Called DateNow]).
Proof.
  intros Hwf Hat%includes_at Hname Hcase.
  pose proof (email_accepted addr Hat) as Hok.
  assert (Hbad : nullable_string_field name = Throw PrismaValidationError).
  { by destruct Hname as [[b ->] | [[z ->] | [l ->]]]. }
  assert (Hbad' : nullable_string_update name = Throw PrismaValidationError).
  { by destruct Hname as [[b ->] | [[z ->] | [l ->]]]. }
  unfold signup, string_arg, new_token, new_expiry, await, sendMagicLinkEmail,
    call.
  rewrite Hok. cbn [bind try_catch run exec].
  destruct Hcase as [Hnew | (Ht & u & Hu & <- & Hv)].
  - rewrite (findFirst_email_None s addr Hnew), Hbad. done.
  - destruct (stored_email_accepted s u Hwf Hu) as [_ Hf].
    rewrite Hf, Hv. unfold js_or. rewrite Ht, Hbad'. done.
Qed.

Lemma signup_bad_name_witness :
  well_formed issued = true /\
  run at_again (signup at_again alice (JNum 7)) issued =
    (inr (failure 500 "Failed to create account. Please try again."), issued,
     [Called (FindUnique [EmailIs "a@x.com"]); Called (RandomBytes 32);
      Called DateNow]) /\
  run at_bob (signup at_bob bob (JBool false)) issued =
    (inr (failure 500 "Failed to create account. Please try again."), issued,
     [Called (FindUnique [EmailIs "b@x.com"]); Called (RandomBytes 32);
      Called DateNow]).
Proof.
  split; [reflexivity |]. split.
  - apply (signup_bad_name issued at_again "a@x.com" (JNum 7));
      [ reflexivity | by exists "a", "x.com"
      | right; left; by exists 7 | ].
    right. split; [reflexivity |]. exists alice_issued.
    split; [vm_compute; left | split; reflexivity].
  - apply (signup_bad_name issued at_bob "b@x.com" (JBool false));
      [ reflexivity | by exists "b", "x.com"
      | left; by exists false | ].
    left. vm_compute.
    intros [H | H]%elem_of_cons; [discriminate H | by apply elem_of_nil in H].
Defined.

(** ** More of the run of the server *)

Lemma accounts_persist_witness :
  exists u',
    serve_all [(at_click, Verify (JStr T1)); (too_late, Cleanup)] issued
      !! 0%nat = Some u' /\
    id u' = "cuid-1" /\ email u' = "a@x.com" /\ createdAt u' = 1000.
Proof.
  destruct (accounts_persist
              [(at_click, Verify (JStr T1)); (too_late, Cleanup)] issued)
    as [Hrows _].
  apply (Hrows 0%nat alice_issued). reflexivity.
Defined.

Lemma token_format_witness :
  drawn at_again = drawn too_late /\ drawn at_signup <> drawn at_again.
Proof.
  split.
  - apply (token_format at_again too_late). intros i _. reflexivity.
  - intros Heq. destruct (token_format at_signup at_again) as (_ & _ & [Hsame _]).
    discriminate (Hsame Heq 0%nat (Nat.lt_0_succ 31)).
Defined.

Lemma concurrent_signup_one_account_witness :
  constraints_ok issued = true /\
  (interleave lookups_first (two_signups at_bob at_bob_too "b@x.com" JNull JNull)
     issued).2 = issued ++ [created_row at_bob "b@x.com" JNull] /\
  answer <$>
    (interleave lookups_first (two_signups at_bob at_bob_too "b@x.com" JNull JNull)
       issued).1 =
    [ Some (signed_up "b@x.com" None);
      Some (failure 500 "Failed to create account. Please try again.") ].
Proof.
  split; [reflexivity |].
  apply (concurrent_signup_one_account issued at_bob at_bob_too "b@x.com"
           JNull JNull);
    [ reflexivity | by exists "b", "x.com" | vm_compute | right; by left
    | right; by left | vm_compute | vm_compute ].
  - intros [H | H]%elem_of_cons; [discriminate H | by apply elem_of_nil in H].
  - intros [H | H]%elem_of_cons; [discriminate H | by apply elem_of_nil in H].
  - intros [H | H]%elem_of_cons; [discriminate H | by apply elem_of_nil in H].
Defined.
